(** * Laniakea: job records, image-build triggering and job scheduling

    A shallow embedding of
      - [src/laniakea/db/jobs.py]      (the [Job] model and its enumerations),
      - [src/admin/lkadmin/isotope.py] ([trigger_image_build]),
    together with a model of the job dispatcher and life-cycle operations,
    which live outside these two files and are taken from the specification.

    Conventions.  A column that may hold NULL (a Python attribute that may be
    [None]) is an [option].  Timestamps and priorities are integers ([Z]);
    UUIDs are numbers ([N]).  The committed rows of the [jobs] table are a
    list in insertion order. *)

From Stdlib Require Import ZArith NArith.
From stdpp Require Import base numbers list strings.

Local Open Scope string_scope.
Local Open Scope list_scope.
Local Open Scope nat_scope.

Abbreviation UUID := N (only parsing).
Abbreviation DateTime := Z (only parsing).

(** ** laniakea/db/jobs.py *)

Module JobStatus.
(** [class JobStatus(IntEnum)]: state of a job. *)
Inductive t :=
| UNKNOWN
| WAITING     (* waiting for someone to take the job *)
| DEPWAIT     (* waiting for a dependency *)
| SCHEDULED   (* job has been assigned *)
| RUNNING     (* the job is running *)
| DONE        (* the job is done *)
| TERMINATED  (* the job was terminated *)
| STARVING.   (* the job was denied computing resources for a long time *)

(** [UNKNOWN = 0], every later member is [enum.auto()]. *)
Definition value (s : t) : Z :=
  match s with
  | UNKNOWN => 0 | WAITING => 1 | DEPWAIT => 2 | SCHEDULED => 3
  | RUNNING => 4 | DONE => 5 | TERMINATED => 6 | STARVING => 7
  end%Z.

Definition members : list t :=
  [UNKNOWN; WAITING; DEPWAIT; SCHEDULED; RUNNING; DONE; TERMINATED; STARVING].

#[global] Instance status_eq_dec : EqDecision t.
Proof. solve_decision. Defined.
End JobStatus.

Module JobResult.
(** [class JobResult(IntEnum)]: result of a job. *)
Inductive t :=
| UNKNOWN
| SUCCESS_PENDING     (* successful, artifacts still missing *)
| SUCCESS
| FAILURE_DEPENDENCY  (* aborted because of a dependency issue *)
| FAILURE_PENDING     (* failed, artifacts or reports still missing *)
| FAILURE.

Definition value (r : t) : Z :=
  match r with
  | UNKNOWN => 0 | SUCCESS_PENDING => 1 | SUCCESS => 2
  | FAILURE_DEPENDENCY => 3 | FAILURE_PENDING => 4 | FAILURE => 5
  end%Z.

(** [JobResult.name] *)
Definition name (r : t) : string :=
  match r with
  | UNKNOWN => "UNKNOWN" | SUCCESS_PENDING => "SUCCESS_PENDING"
  | SUCCESS => "SUCCESS" | FAILURE_DEPENDENCY => "FAILURE_DEPENDENCY"
  | FAILURE_PENDING => "FAILURE_PENDING" | FAILURE => "FAILURE"
  end.

(** [JobResult.__str__] *)
Definition __str__ (r : t) : string :=
  if Z.eqb (value r) (value SUCCESS_PENDING) then "success-pending"
  else if Z.eqb (value r) (value SUCCESS) then "success"
  else if Z.eqb (value r) (value FAILURE_DEPENDENCY) then "failure-dependency"
  else if Z.eqb (value r) (value FAILURE_PENDING) then "failure-pending"
  else if Z.eqb (value r) (value FAILURE) then "failure"
  else String.append "JobResult." (name r).

#[global] Instance result_eq_dec : EqDecision t.
Proof. solve_decision. Defined.
End JobResult.

Module JobKind.
(** [class JobKind]: job kind identifier strings. *)
Definition OS_IMAGE_BUILD : string := "os-image-build".
Definition PACKAGE_BUILD : string := "package-build".
End JobKind.

(** [class Job(Base)]: one row of table [jobs]; also the in-memory object,
    whose attributes are all [None] until assigned or filled in on INSERT. *)
Record Job := mkJob {
  uuid : option UUID;               (* primary key, default=uuid4 *)
  status : option JobStatus.t;      (* default=JobStatus.WAITING *)
  module : option string;           (* nullable=False *)
  kind : option string;             (* nullable=False *)
  trigger : option UUID;
  version : option string;          (* DebVersion, can be null *)
  architecture : option string;     (* default='any' *)
  time_created : option DateTime;   (* default=datetime.utcnow *)
  time_assigned : option DateTime;
  time_finished : option DateTime;
  priority : option Z;
  worker : option UUID;
  result : option JobResult.t;      (* default=JobResult.UNKNOWN *)
  data : option string;             (* JSON document, never inspected *)
  latest_log_excerpt : option string
}.

#[global] Instance Job_eq_dec : EqDecision Job.
Proof. solve_decision. Defined.

(** [Job()]: a fresh object, nothing assigned. *)
Definition Job_new : Job :=
  mkJob None None None None None None None None None None None None None None None.

(** Attribute assignment, [job.<field> = v]. *)
Definition set_uuid (v : option UUID) (j : Job) : Job :=
  mkJob v (status j) (module j) (kind j) (trigger j) (version j) (architecture j)
        (time_created j) (time_assigned j) (time_finished j) (priority j) (worker j)
        (result j) (data j) (latest_log_excerpt j).
Definition set_status (v : option JobStatus.t) (j : Job) : Job :=
  mkJob (uuid j) v (module j) (kind j) (trigger j) (version j) (architecture j)
        (time_created j) (time_assigned j) (time_finished j) (priority j) (worker j)
        (result j) (data j) (latest_log_excerpt j).
Definition set_module (v : option string) (j : Job) : Job :=
  mkJob (uuid j) (status j) v (kind j) (trigger j) (version j) (architecture j)
        (time_created j) (time_assigned j) (time_finished j) (priority j) (worker j)
        (result j) (data j) (latest_log_excerpt j).
Definition set_kind (v : option string) (j : Job) : Job :=
  mkJob (uuid j) (status j) (module j) v (trigger j) (version j) (architecture j)
        (time_created j) (time_assigned j) (time_finished j) (priority j) (worker j)
        (result j) (data j) (latest_log_excerpt j).
Definition set_trigger (v : option UUID) (j : Job) : Job :=
  mkJob (uuid j) (status j) (module j) (kind j) v (version j) (architecture j)
        (time_created j) (time_assigned j) (time_finished j) (priority j) (worker j)
        (result j) (data j) (latest_log_excerpt j).
Definition set_architecture (v : option string) (j : Job) : Job :=
  mkJob (uuid j) (status j) (module j) (kind j) (trigger j) (version j) v
        (time_created j) (time_assigned j) (time_finished j) (priority j) (worker j)
        (result j) (data j) (latest_log_excerpt j).
Definition set_time_created (v : option DateTime) (j : Job) : Job :=
  mkJob (uuid j) (status j) (module j) (kind j) (trigger j) (version j) (architecture j)
        v (time_assigned j) (time_finished j) (priority j) (worker j)
        (result j) (data j) (latest_log_excerpt j).
Definition set_time_assigned (v : option DateTime) (j : Job) : Job :=
  mkJob (uuid j) (status j) (module j) (kind j) (trigger j) (version j) (architecture j)
        (time_created j) v (time_finished j) (priority j) (worker j)
        (result j) (data j) (latest_log_excerpt j).
Definition set_time_finished (v : option DateTime) (j : Job) : Job :=
  mkJob (uuid j) (status j) (module j) (kind j) (trigger j) (version j) (architecture j)
        (time_created j) (time_assigned j) v (priority j) (worker j)
        (result j) (data j) (latest_log_excerpt j).
Definition set_priority (v : option Z) (j : Job) : Job :=
  mkJob (uuid j) (status j) (module j) (kind j) (trigger j) (version j) (architecture j)
        (time_created j) (time_assigned j) (time_finished j) v (worker j)
        (result j) (data j) (latest_log_excerpt j).
Definition set_worker (v : option UUID) (j : Job) : Job :=
  mkJob (uuid j) (status j) (module j) (kind j) (trigger j) (version j) (architecture j)
        (time_created j) (time_assigned j) (time_finished j) (priority j) v
        (result j) (data j) (latest_log_excerpt j).
Definition set_result (v : option JobResult.t) (j : Job) : Job :=
  mkJob (uuid j) (status j) (module j) (kind j) (trigger j) (version j) (architecture j)
        (time_created j) (time_assigned j) (time_finished j) (priority j) (worker j)
        v (data j) (latest_log_excerpt j).
Definition set_latest_log_excerpt (v : option string) (j : Job) : Job :=
  mkJob (uuid j) (status j) (module j) (kind j) (trigger j) (version j) (architecture j)
        (time_created j) (time_assigned j) (time_finished j) (priority j) (worker j)
        (result j) (data j) v.

(** [Job.is_taken] *)
Definition is_taken (self : Job) : bool :=
  bool_decide (status self = Some JobStatus.SCHEDULED)
  || bool_decide (status self = Some JobStatus.RUNNING).

(** [Job.has_result] *)
Definition has_result (self : Job) : bool :=
  bool_decide (result self ≠ Some JobResult.UNKNOWN).

(** [Job.is_failed] *)
Definition is_failed (self : Job) : bool :=
  bool_decide (result self = Some JobResult.FAILURE)
  || bool_decide (result self = Some JobResult.FAILURE_PENDING)
  || bool_decide (result self = Some JobResult.FAILURE_DEPENDENCY).

(** ** The database session

    [trigger_image_build] runs inside [session_scope()] and talks to a
    SQLAlchemy [Session]; [session_scope], [ImageBuildRecipe] and [LkModule]
    are declared in [laniakea.db], outside the sources at hand.  The spec's
    words for the store: a "durable, transactional record of all jobs", and
    "all Jobs for one trigger call are created in a single transaction —
    either all are persisted or none are".  Accordingly: [session.add] only
    queues an object in the session; [session.commit] fills in the column
    defaults of every queued object, checks the NOT NULL and primary-key
    constraints of table [jobs] and then stores all of them or none; leaving
    the scope with an exception rolls the session back. *)

Module LkModule.
(** Modelled from the spec: [LkModule.ISOTOPE], the module name of the
    image builder ("isotope" in the spec's data model). *)
Definition ISOTOPE : string := "isotope".
End LkModule.

Module ImageBuildRecipe.
(** Modelled from the spec: [ImageBuildRecipe], a producer-owned recipe that
    "carries a list of target architectures"; only the attributes
    [trigger_image_build] reads. *)
Record t := mk {
  uuid : UUID;
  name : string;
  architectures : list string
}.
End ImageBuildRecipe.

(** The exceptions a run can end with. *)
Inductive Exception :=
| SystemExit (code : Z)      (* sys.exit(code) *)
| MultipleResultsFound       (* Query.one_or_none() on several rows *)
| IntegrityError             (* a constraint of the table is violated *)
| SimulatedFailure.          (* an injected failure of a session operation *)

(** What the command prints. *)
Inductive Output :=
| NoteRecipeNotFound (recipe_name : string)
| DoneScheduled (job_count : nat) (recipe_name : string).

(** The two sources of fresh values a flush consults: [uuid4()] and
    [datetime.utcnow()], as the sequence of values they return. *)
Record Host := mkHost {
  uuid4 : nat → UUID;
  utcnow : nat → DateTime
}.

(** The database, the open session and the process around them. *)
Record World := mkWorld {
  jobs : list Job;                       (* committed rows of table jobs *)
  recipes : list ImageBuildRecipe.t;     (* committed image build recipes *)
  session_new : list Job;                (* session.new: added, not yet flushed *)
  uuid_draws : nat;                      (* calls of uuid4() so far *)
  clock_reads : nat;                     (* calls of utcnow() so far *)
  fuse : option nat;                     (* session operations left before one fails *)
  stdout : list Output
}.

Definition set_jobs (v : list Job) (w : World) : World :=
  mkWorld v (recipes w) (session_new w) (uuid_draws w) (clock_reads w) (fuse w) (stdout w).
Definition set_session_new (v : list Job) (w : World) : World :=
  mkWorld (jobs w) (recipes w) v (uuid_draws w) (clock_reads w) (fuse w) (stdout w).
Definition set_counters (d c : nat) (w : World) : World :=
  mkWorld (jobs w) (recipes w) (session_new w) d c (fuse w) (stdout w).
Definition set_fuse (v : option nat) (w : World) : World :=
  mkWorld (jobs w) (recipes w) (session_new w) (uuid_draws w) (clock_reads w) v (stdout w).
Definition set_stdout (v : list Output) (w : World) : World :=
  mkWorld (jobs w) (recipes w) (session_new w) (uuid_draws w) (clock_reads w) (fuse w) v.

(** Commands: a state and exception monad over [World]. *)
Definition M (A : Type) : Type := World → (Exception + A) * World.

#[global] Instance M_ret : MRet M := λ A a w, (inr a, w).
#[global] Instance M_bind : MBind M := λ A B f m w,
  match m w with
  | (inr a, w') => f a w'
  | (inl e, w') => (inl e, w')
  end.

Definition raise {A} (e : Exception) : M A := λ w, (inl e, w).
Definition gets {A} (f : World → A) : M A := λ w, (inr (f w), w).
Definition modify (f : World → World) : M unit := λ w, (inr tt, f w).

Definition print (o : Output) : M unit := modify (λ w, set_stdout (stdout w ++ [o]) w).
Definition sys_exit {A} (code : Z) : M A := raise (SystemExit code).

(** Modelled from the spec: a "simulated mid-batch failure".  Every session
    operation may raise; the fuse counts the operations that still succeed,
    [None] never fails. *)
Definition session_op : M unit := λ w,
  match fuse w with
  | None => (inr tt, w)
  | Some (S n) => (inr tt, set_fuse (Some n) w)
  | Some O => (inl SimulatedFailure, set_fuse None w)
  end.

(** [for x in xs: acc = body(x, acc)] *)
Fixpoint for_in {A S} (xs : list A) (body : A → S → M S) (acc : S) : M S :=
  match xs with
  | [] => mret acc
  | x :: xs' => acc' ← body x acc; for_in xs' body acc'
  end.

(** Modelled from the spec: the recipe lookup
    [session.query(ImageBuildRecipe).filter(ImageBuildRecipe.name == n).one_or_none()],
    on the stored recipes: none, the one, or an error when several match. *)
Definition query_recipe_one_or_none (n : string) : M (option ImageBuildRecipe.t) :=
  session_op;;
  rs ← gets (λ w, filter (λ r, ImageBuildRecipe.name r = n) (recipes w));
  match rs with
  | [] => mret None
  | [r] => mret (Some r)
  | _ => raise MultipleResultsFound
  end.

(** Modelled from the spec: [session.add(job)] queues the object; nothing
    is stored before the commit. *)
Definition session_add (job : Job) : M unit :=
  session_op;;
  modify (λ w, set_session_new (session_new w ++ [job]) w).

(** The column defaults of [Job], filled in for the attributes still unset
    when the row is inserted; [d] and [c] count the draws of [uuid4] and the
    readings of [utcnow]. *)
Definition insert_defaults (h : Host) (d c : nat) (j : Job) : Job * nat * nat :=
  (mkJob (Some (default (uuid4 h d) (uuid j)))
         (Some (default JobStatus.WAITING (status j)))
         (module j) (kind j) (trigger j) (version j)
         (Some (default "any" (architecture j)))
         (Some (default (utcnow h c) (time_created j)))
         (time_assigned j) (time_finished j) (priority j) (worker j)
         (Some (default JobResult.UNKNOWN (result j)))
         (data j) (latest_log_excerpt j),
   if uuid j is None then S d else d,
   if time_created j is None then S c else c).

Fixpoint flush (h : Host) (d c : nat) (new : list Job) : list Job * nat * nat :=
  match new with
  | [] => ([], d, c)
  | j :: new' =>
      let '(row, d1, c1) := insert_defaults h d c j in
      let '(rows, d2, c2) := flush h d1 c1 new' in
      (row :: rows, d2, c2)
  end.

(** Constraints of table [jobs]: [module] and [kind] are [nullable=False],
    [uuid] is the primary key. *)
Definition not_null (j : Job) : Prop :=
  is_Some (uuid j) ∧ is_Some (module j) ∧ is_Some (kind j).

(** New rows may be stored: none has a NULL where it must not, and their
    ids differ from each other and from the ids in the table. *)
Definition constraints_ok (table rows : list Job) : Prop :=
  Forall not_null rows
  ∧ NoDup (uuid <$> rows)
  ∧ Forall (λ j, uuid j ∉ uuid <$> table) rows.

#[global] Instance constraints_ok_dec table rows : Decision (constraints_ok table rows).
Proof. unfold constraints_ok, not_null. apply _. Defined.

(** Modelled from the spec: the effect of a commit, "either all are
    persisted or none are": the queued objects become rows with their
    defaults filled in, and are stored together if the constraints hold for
    all of them. *)
Definition flush_and_store (h : Host) : M unit := λ w,
  let '(rows, d, c) := flush h (uuid_draws w) (clock_reads w) (session_new w) in
  if decide (constraints_ok (jobs w) rows)
  then (inr tt, set_session_new [] (set_jobs (jobs w ++ rows) (set_counters d c w)))
  else (inl IntegrityError, set_counters d c w).

(** Modelled from the spec: [session.commit()], one transaction. *)
Definition session_commit (h : Host) : M unit :=
  session_op;;
  flush_and_store h.

(** Modelled from the spec: [session.rollback()] drops what was not
    committed. *)
Definition session_rollback (w : World) : World := set_session_new [] w.
(** Modelled from the spec: [session.close()]. *)
Definition session_close (w : World) : World := set_session_new [] w.

(** Modelled from the spec: [with session_scope() as session: body], "a
    single transaction": commit on leaving the block, roll back and re-raise
    on any exception, close in every case. *)
Definition session_scope {A} (h : Host) (body : M A) : M A := λ w,
  match body (set_session_new [] w) with
  | (inr a, w1) =>
      match session_commit h w1 with
      | (inr _, w2) => (inr a, session_close w2)
      | (inl e, w2) => (inl e, session_close (session_rollback w2))
      end
  | (inl e, w1) => (inl e, session_close (session_rollback w1))
  end.

(** ** admin/lkadmin/isotope.py *)

(** [trigger_image_build(options)], with [options.trigger_build = recipe_name]. *)
Definition trigger_image_build (h : Host) (recipe_name : string) : M unit :=
  session_scope h (
    recipe ← query_recipe_one_or_none recipe_name;
    match recipe with
    | None =>
        print (NoteRecipeNotFound recipe_name);;
        sys_exit 2
    | Some recipe =>
        job_count ← for_in (ImageBuildRecipe.architectures recipe) (λ arch job_count,
          let job := Job_new in
          let job := set_module (Some LkModule.ISOTOPE) job in
          let job := set_kind (Some JobKind.OS_IMAGE_BUILD) job in
          let job := set_trigger (Some (ImageBuildRecipe.uuid recipe)) job in
          let job := set_architecture (Some arch) job in
          session_add job;;
          mret (job_count + 1)) 0;
        session_commit h;;
        print (DoneScheduled job_count (ImageBuildRecipe.name recipe))
    end).

(** ** Dispatcher, state machine and starvation monitor

    The Dispatcher ([ClaimNext]), the State Machine operations and the
    Starvation Monitor (spec sections 4.2 to 4.4, 5 and 6) have no code among
    the sources at hand; every definition of this part is modelled from the
    spec and quotes it.  They act on the rows of table [jobs] as declared in
    [jobs.py].

    Where the spec is silent the model says so: a job without [kind] or
    [architecture] matches no worker; an unset [priority] or [time_created]
    is ordered the way the store orders NULL (above every value); a
    [Starving] job is claimable like a [Waiting] one (section 4.4). *)

(** Modelled from the spec: the error taxonomy of section 7. *)
Inductive Error :=
| ValidationError | NotFoundError | PreconditionError | ConflictError | DependencyError.

Module Worker.
(** Modelled from the spec: a worker, "identified by an id, advertises a
    capability set {supported architectures, supported kinds}". *)
Record t := mk {
  id : UUID;
  architectures : list string;
  kinds : list string
}.
End Worker.

(** The wildcard architecture: ["any"], the default of [Job.architecture]. *)
Definition wildcard : string := "any".

(** Modelled from the spec: the statuses a claim may be taken from,
    [Waiting], and [Starving] since "a Starving Job remains claimable by the
    Dispatcher exactly as a Waiting one would be". *)
Definition claimable (j : Job) : bool :=
  bool_decide (status j = Some JobStatus.WAITING)
  || bool_decide (status j = Some JobStatus.STARVING).

(** Modelled from the spec: "whose kind is in the worker's supported
    kinds". *)
Definition kind_supported (w : Worker.t) (j : Job) : bool :=
  match kind j with
  | Some k => bool_decide (k ∈ Worker.kinds w)
  | None => false
  end.

(** Modelled from the spec: "whose architecture is either the wildcard or
    in the worker's supported architectures". *)
Definition architecture_matches (w : Worker.t) (j : Job) : bool :=
  match architecture j with
  | Some a => bool_decide (a = wildcard) || bool_decide (a ∈ Worker.architectures w)
  | None => false
  end.

(** Modelled from the spec: "Candidate set: Jobs with status=Waiting, whose
    kind is in the worker's supported kinds, and whose architecture is
    either the wildcard or in the worker's supported architectures." *)
Definition eligible (w : Worker.t) (j : Job) : bool :=
  claimable j && kind_supported w j && architecture_matches w j.

(** Modelled from the spec: the order of "priority: integer" and of the
    timestamps, extended to unset values: [x <= y] with NULL above every
    value. *)
Definition null_top_le (x y : option Z) : bool :=
  match x, y with
  | _, None => true
  | None, Some _ => false
  | Some a, Some b => (a <=? b)%Z
  end.

(** Modelled from the spec: "sorted by priority descending, ties broken by
    timeCreated ascending"; [before a b] when [a] is served no later than
    [b]. *)
Definition before (a b : Job) : bool :=
  if negb (null_top_le (priority a) (priority b)) then true
  else if negb (null_top_le (priority b) (priority a)) then false
  else null_top_le (time_created a) (time_created b).

(** Modelled from the spec: the sort of the candidates, stable: rows that
    tie keep their order in the table. *)
Fixpoint insert_sorted (x : Job) (l : list Job) : list Job :=
  match l with
  | [] => [x]
  | y :: l' => if before x y then x :: y :: l' else y :: insert_sorted x l'
  end.

(** Modelled from the spec: "candidates sorted by priority descending". *)
Definition sort_candidates (l : list Job) : list Job := foldr insert_sorted [] l.

(** Modelled from the spec: the sorted candidate set of a worker. *)
Definition candidates (w : Worker.t) (pool : list Job) : list Job :=
  sort_candidates (List.filter (eligible w) pool).

(** Modelled from the spec: the claim itself, "from Waiting to Scheduled
    with worker=<id>, timeAssigned=now". *)
Definition assign (wid : UUID) (now : DateTime) (j : Job) : Job :=
  set_time_assigned (Some now) (set_worker (Some wid) (set_status (Some JobStatus.SCHEDULED) j)).

(** Modelled from the spec: the rows "where id = X and status = Waiting". *)
Definition claim_target (x : option UUID) (j : Job) : bool :=
  bool_decide (uuid j = x) && claimable j.

(** Modelled from the spec: the store after "update status to Scheduled
    where id = X and status = Waiting". *)
Definition claimed (x : option UUID) (wid : UUID) (now : DateTime) (pool : list Job)
    : list Job :=
  (λ r, if claim_target x r then assign wid now r else r) <$> pool.

(** Modelled from the spec: the atomic conditional update, "checking the
    affected-row count to detect races": no row affected is a lost race;
    otherwise the claimed row is returned. *)
Definition conditional_claim (x : option UUID) (wid : UUID) (now : DateTime)
    (pool : list Job) : Error + Job * list Job :=
  match List.filter (claim_target x) pool with
  | [] => inl ConflictError
  | j :: _ => inr (assign wid now j, claimed x wid now pool)
  end.

(** Modelled from the spec: "If the condition fails ..., the Dispatcher
    retries against the next candidate rather than failing the whole call."
    [None] is Empty. *)
Fixpoint claim_first (w : Worker.t) (now : DateTime) (cands pool : list Job)
    : option Job * list Job :=
  match cands with
  | [] => (None, pool)
  | c :: cands' =>
      match conditional_claim (uuid c) (Worker.id w) now pool with
      | inr (j, pool') => (Some j, pool')
      | inl _ => claim_first w now cands' pool
      end
  end.

(** Modelled from the spec: [ClaimNext(workerCapabilities) → Job or Empty],
    run without interference. *)
Definition ClaimNext (w : Worker.t) (now : DateTime) (pool : list Job)
    : option Job * list Job :=
  claim_first w now (candidates w pool) pool.

(** *** Transitions of one job *)

(** Modelled from the spec: "Done and Terminated are terminal". *)
Definition terminal (s : JobStatus.t) : bool :=
  bool_decide (s = JobStatus.DONE) || bool_decide (s = JobStatus.TERMINATED).

(** Modelled from the spec: the precondition "job [s], caller=worker". *)
Definition held_by (caller : UUID) (s : JobStatus.t) (j : Job) : bool :=
  bool_decide (status j = Some s) && bool_decide (worker j = Some caller).

(** Modelled from the spec: [StartRunning], "Scheduled -> Running (worker
    reports execution start)". *)
Definition StartRunning (caller : UUID) (j : Job) : Error + Job :=
  if held_by caller JobStatus.SCHEDULED j
  then inr (set_status (Some JobStatus.RUNNING) j)
  else inl PreconditionError.

(** Modelled from the spec: [ReportProgress], "valid only while
    status=Running; it overwrites logExcerpt and is otherwise side-effect
    free". *)
Definition ReportProgress (caller : UUID) (log : string) (j : Job) : Error + Job :=
  if held_by caller JobStatus.RUNNING j
  then inr (set_latest_log_excerpt (Some log) j)
  else inl PreconditionError.

(** Modelled from the spec: [Complete], "Running -> Done (worker reports
    success or failure)" or "Running -> Terminated (... unrecoverable
    failure)", with the result and the finishing time. *)
Definition Complete (caller : UUID) (unrecoverable : bool) (res : JobResult.t)
    (now : DateTime) (j : Job) : Error + Job :=
  if held_by caller JobStatus.RUNNING j
  then inr (set_time_finished (Some now) (set_result (Some res)
         (set_status (Some (if unrecoverable then JobStatus.TERMINATED else JobStatus.DONE)) j)))
  else inl PreconditionError.

(** Modelled from the spec: [MarkDependencyWait], "Waiting -> DepWait
    (producer marks blocked on dependency)". *)
Definition MarkDependencyWait (j : Job) : Error + Job :=
  if bool_decide (status j = Some JobStatus.WAITING)
  then inr (set_status (Some JobStatus.DEPWAIT) j)
  else inl PreconditionError.

(** Modelled from the spec: [ClearDependencyWait], "DepWait -> Waiting
    (producer clears dependency)". *)
Definition ClearDependencyWait (j : Job) : Error + Job :=
  if bool_decide (status j = Some JobStatus.DEPWAIT)
  then inr (set_status (Some JobStatus.WAITING) j)
  else inl PreconditionError.

(** Modelled from the spec: "any non-terminal status". *)
Definition non_terminal (j : Job) : bool :=
  match status j with
  | Some s => negb (terminal s)
  | None => false
  end.

(** Modelled from the spec: [ForceTerminate], "any non-terminal status ->
    Terminated". *)
Definition ForceTerminate (now : DateTime) (j : Job) : Error + Job :=
  if non_terminal j
  then inr (set_time_finished (Some now) (set_status (Some JobStatus.TERMINATED) j))
  else inl PreconditionError.

(** Modelled from the spec: the dependency abort, "job status Terminated,
    result FailureDependency". *)
Definition AbortDependency (now : DateTime) (j : Job) : Error + Job :=
  if non_terminal j
  then inr (set_time_finished (Some now) (set_result (Some JobResult.FAILURE_DEPENDENCY)
         (set_status (Some JobStatus.TERMINATED) j)))
  else inl PreconditionError.

(** Modelled from the spec: "Scheduled -> Waiting (claim revoked: worker
    lost/timeout — administrative action)". *)
Definition RevokeClaim (j : Job) : Error + Job :=
  if bool_decide (status j = Some JobStatus.SCHEDULED)
  then inr (set_status (Some JobStatus.WAITING) j)
  else inl PreconditionError.

(** Modelled from the spec: "Starving -> Waiting (priority boosted ...)". *)
Definition BoostPriority (p : Z) (j : Job) : Error + Job :=
  if bool_decide (status j = Some JobStatus.STARVING)
  then inr (set_priority (Some p) (set_status (Some JobStatus.WAITING) j))
  else inl PreconditionError.

(** Modelled from the spec: the confirmation of a result, "SuccessPending →
    Success" and "FailurePending → Failure", once the job is Done or
    Terminated, "without touching status". *)
Definition ConfirmResult (j : Job) : Error + Job :=
  if bool_decide (status j = Some JobStatus.DONE)
     || bool_decide (status j = Some JobStatus.TERMINATED) then
    match result j with
    | Some JobResult.SUCCESS_PENDING => inr (set_result (Some JobResult.SUCCESS) j)
    | Some JobResult.FAILURE_PENDING => inr (set_result (Some JobResult.FAILURE) j)
    | _ => inl PreconditionError
    end
  else inl PreconditionError.

(** Modelled from the spec: what the sweep flags, "status=Waiting and now -
    timeCreated > starvationThreshold". *)
Definition starving (now threshold : Z) (j : Job) : bool :=
  bool_decide (status j = Some JobStatus.WAITING)
  && match time_created j with
     | Some t => (threshold <? now - t)%Z
     | None => false
     end.

(** Modelled from the spec: the sweep of the Starvation Monitor,
    "transitioning them to Starving". *)
Definition StarvationSweep (now threshold : Z) (pool : list Job) : list Job :=
  (λ j, if starving now threshold j then set_status (Some JobStatus.STARVING) j else j) <$> pool.

(** Modelled from the spec: a transition addressed by job id;
    [NotFoundError] when no row has the id, and "a failed transition leaves
    the prior state fully intact". *)
Definition on_job (jid : UUID) (f : Job → Error + Job) (pool : list Job)
    : Error + list Job :=
  match list_find (λ j, uuid j = Some jid) pool with
  | None => inl NotFoundError
  | Some (i, j) =>
      match f j with
      | inl e => inl e
      | inr j' => inr (<[i := j']> pool)
      end
  end.

(** *** The operations of the core *)

(** Modelled from the spec: the operations of section 6, with the
    transitions of section 4.3 that have no row there (abort on a failed
    dependency, claim revocation, priority boost, result confirmation) and
    the sweep of section 4.4. *)
Inductive Operation :=
| OpTriggerBuild (recipe_name : string)
| OpClaimNext (w : Worker.t) (now : DateTime)
| OpStartRunning (jid caller : UUID)
| OpReportProgress (jid caller : UUID) (log : string)
| OpComplete (jid caller : UUID) (unrecoverable : bool) (res : JobResult.t) (now : DateTime)
| OpMarkDependencyWait (jid : UUID)
| OpClearDependencyWait (jid : UUID)
| OpForceTerminate (jid : UUID) (now : DateTime)
| OpAbortDependency (jid : UUID) (now : DateTime)
| OpRevokeClaim (jid : UUID)
| OpBoostPriority (jid : UUID) (p : Z)
| OpConfirmResult (jid : UUID)
| OpStarvationSweep (now threshold : Z).

(** Modelled from the spec: the table after a transition, "all-or-nothing":
    unchanged when the transition fails. *)
Definition settle (r : Error + list Job) (pool : list Job) : list Job :=
  match r with
  | inr pool' => pool'
  | inl _ => pool
  end.

(** Modelled from the spec: the effect of an operation on table [jobs]
    (the trigger is run by [perform] below). *)
Definition perform_on_jobs (op : Operation) (pool : list Job) : list Job :=
  match op with
  | OpTriggerBuild _ => pool
  | OpClaimNext w now => snd (ClaimNext w now pool)
  | OpStartRunning jid caller => settle (on_job jid (StartRunning caller) pool) pool
  | OpReportProgress jid caller log => settle (on_job jid (ReportProgress caller log) pool) pool
  | OpComplete jid caller u res now => settle (on_job jid (Complete caller u res now) pool) pool
  | OpMarkDependencyWait jid => settle (on_job jid MarkDependencyWait pool) pool
  | OpClearDependencyWait jid => settle (on_job jid ClearDependencyWait pool) pool
  | OpForceTerminate jid now => settle (on_job jid (ForceTerminate now) pool) pool
  | OpAbortDependency jid now => settle (on_job jid (AbortDependency now) pool) pool
  | OpRevokeClaim jid => settle (on_job jid RevokeClaim pool) pool
  | OpBoostPriority jid p => settle (on_job jid (BoostPriority p) pool) pool
  | OpConfirmResult jid => settle (on_job jid ConfirmResult pool) pool
  | OpStarvationSweep now threshold => StarvationSweep now threshold pool
  end.

(** Modelled from the spec: one operation on the whole system.  The trigger
    is the code's own [trigger_image_build]. *)
Definition perform (h : Host) (op : Operation) (w : World) : World :=
  match op with
  | OpTriggerBuild recipe_name => snd (trigger_image_build h recipe_name w)
  | _ => set_jobs (perform_on_jobs op (jobs w)) w
  end.

(** Modelled from the spec: a "sequence of valid operations", in order. *)
Definition perform_all (h : Host) (ops : list Operation) (w : World) : World :=
  foldl (λ w op, perform h op w) w ops.

(** *** Concurrent claimants

    Dispatchers "may run as independent processes" against one store.  A
    call of [ClaimNext] is two kinds of atomic store accesses: reading the
    candidates, and one conditional update per attempt.  Between any two
    accesses of one caller the others may run. *)

(** Modelled from the spec: how far a call of [ClaimNext] has got. *)
Inductive Progress :=
| Polling                       (* the call has not read the store yet *)
| Trying (cands : list Job)     (* candidates read earlier, best first *)
| Returned (r : option Job).    (* the call has returned; [None] is Empty *)

(** Modelled from the spec: one of the "N≥2 callers": a worker, the time of
    its call, and how far the call has got. *)
Record Claimant := mkClaimant {
  who : Worker.t;
  called_at : DateTime;
  progress : Progress
}.

(** Modelled from the spec: "one shared, durable Job Store" and the calls
    in flight against it. *)
Record System := mkSystem {
  pool : list Job;
  claimants : list Claimant
}.

(** Modelled from the spec: the next store access of one caller: read the
    candidates, or try "an atomic conditional transition of the top
    candidate", going on to "the next candidate" when the race is lost. *)
Definition claimant_step (c : Claimant) (pool : list Job) : Claimant * list Job :=
  match progress c with
  | Polling => (mkClaimant (who c) (called_at c) (Trying (candidates (who c) pool)), pool)
  | Trying [] => (mkClaimant (who c) (called_at c) (Returned None), pool)
  | Trying (x :: rest) =>
      match conditional_claim (uuid x) (Worker.id (who c)) (called_at c) pool with
      | inr (j, pool') => (mkClaimant (who c) (called_at c) (Returned (Some j)), pool')
      | inl _ => (mkClaimant (who c) (called_at c) (Trying rest), pool)
      end
  | Returned _ => (c, pool)
  end.

(** Modelled from the spec: caller [i] runs for one access; the others
    wait. *)
Definition step (i : nat) (s : System) : System :=
  match claimants s !! i with
  | None => s
  | Some c =>
      let '(c', pool') := claimant_step c (pool s) in
      mkSystem pool' (<[i := c']> (claimants s))
  end.

(** Modelled from the spec: "concurrent ClaimNext calls" as an
    interleaving: who runs next, in order. *)
Definition run_schedule (sched : list nat) (s : System) : System :=
  foldl (λ s i, step i s) s sched.

(** Modelled from the spec: [N] callers that have all just called
    [ClaimNext]. *)
Definition start (callers : list (Worker.t * DateTime)) (pool : list Job) : System :=
  mkSystem pool ((λ '(w, now), mkClaimant w now Polling) <$> callers).

(** The call of [c] has returned. *)
Definition has_returned (c : Claimant) : bool :=
  match progress c with
  | Returned _ => true
  | _ => false
  end.

(** How often caller [i] is scheduled. *)
Definition turns (i : nat) (sched : list nat) : nat :=
  length (List.filter (Nat.eqb i) sched).

(** Jobs carrying a trigger reference. *)
Definition triggered_by (t : UUID) (pool : list Job) : list Job :=
  List.filter (λ j, bool_decide (trigger j = Some t)) pool.

(** *** Auxiliary definitions for the statements below *)

(** The job object [trigger_image_build] builds for one architecture. *)
Definition built_job (r : ImageBuildRecipe.t) (arch : string) : Job :=
  set_architecture (Some arch)
    (set_trigger (Some (ImageBuildRecipe.uuid r))
      (set_kind (Some JobKind.OS_IMAGE_BUILD)
        (set_module (Some LkModule.ISOTOPE) Job_new))).

(** The row it becomes once stored. *)
Definition stored_job (r : ImageBuildRecipe.t) (u : UUID) (t : DateTime) (arch : string) : Job :=
  mkJob (Some u) (Some JobStatus.WAITING) (Some LkModule.ISOTOPE)
        (Some JobKind.OS_IMAGE_BUILD) (Some (ImageBuildRecipe.uuid r)) None
        (Some arch) (Some t) None None None None (Some JobResult.UNKNOWN) None None.

(** The rows of one trigger, with the ids and times drawn in order. *)
Fixpoint stored_batch (h : Host) (r : ImageBuildRecipe.t) (d c : nat) (archs : list string)
    : list Job :=
  match archs with
  | [] => []
  | a :: archs' =>
      stored_job r (uuid4 h d) (utcnow h c) a :: stored_batch h r (S d) (S c) archs'
  end.

(** The loop body of [trigger_image_build]. *)
Definition add_job (r : ImageBuildRecipe.t) (arch : string) (job_count : nat) : M nat :=
  session_add (built_job r arch);; mret (job_count + 1).

(** The fuse after [n] successful session operations, and whether it lets
    [n] operations succeed. *)
Definition burn (n : nat) (f : option nat) : option nat := (λ m, m - n) <$> f.
Definition survives (n : nat) (f : option nat) : bool :=
  match f with
  | Some m => (n <=? m)%nat
  | None => true
  end.

(** The recipe of a given name, when there is exactly one. *)
Definition recipe_named (n : string) (w : World) (r : ImageBuildRecipe.t) : Prop :=
  filter (λ r, ImageBuildRecipe.name r = n) (recipes w) = [r].

(** The identifiers the next [k] calls of [uuid4] return. *)
Definition next_uuids (h : Host) (w : World) (k : nat) : list (option UUID) :=
  (λ i, Some (uuid4 h i)) <$> seq (uuid_draws w) k.

(** The next [k] identifiers are new: distinct, and in no stored job. *)
Definition fresh_uuids (h : Host) (w : World) (k : nat) : Prop :=
  NoDup ((uuid <$> jobs w) ++ next_uuids h w k).

(** The fields the jobs of one trigger have in common. *)
Definition created_as (r : ImageBuildRecipe.t) (j : Job) : Prop :=
  trigger j = Some (ImageBuildRecipe.uuid r)
  ∧ module j = Some LkModule.ISOTOPE
  ∧ kind j = Some JobKind.OS_IMAGE_BUILD
  ∧ status j = Some JobStatus.WAITING
  ∧ result j = Some JobResult.UNKNOWN.

(** A host and a store to run examples on. *)
Definition example_host : Host := mkHost N.of_nat Z.of_nat.
Definition recipe_R1 : ImageBuildRecipe.t := ImageBuildRecipe.mk 7%N "R1" ["amd64"; "arm64"].
Definition recipe_R0 : ImageBuildRecipe.t := ImageBuildRecipe.mk 8%N "R0" [].
Definition example_world : World := mkWorld [] [recipe_R1; recipe_R0] [] 0 0 None [].

(** The seven statuses of the spec's state machine. *)
Definition seven_statuses : list JobStatus.t :=
  [JobStatus.WAITING; JobStatus.DEPWAIT; JobStatus.SCHEDULED; JobStatus.RUNNING;
   JobStatus.DONE; JobStatus.TERMINATED; JobStatus.STARVING].

Definition status_in_seven (j : Job) : Prop :=
  ∃ s, status j = Some s ∧ s ∈ seven_statuses.

(** Done or Terminated. *)
Definition terminal_job (j : Job) : Prop :=
  status j = Some JobStatus.DONE ∨ status j = Some JobStatus.TERMINATED.

(** The row a job becomes on INSERT, without the counters. *)
Definition inserted (h : Host) (d c : nat) (j : Job) : Job :=
  fst (fst (insert_defaults h d c j)).

(** How one row may change under one operation: the id stays, a terminal
    status stays, and a status among the seven stays among the seven. *)
Definition evolves (j j' : Job) : Prop :=
  uuid j' = uuid j
  ∧ (terminal_job j → status j' = status j)
  ∧ (status_in_seven j → status_in_seven j').

(** A worker and a short history to run examples on. *)
Definition example_worker : Worker.t := Worker.mk 9%N ["amd64"] ["os-image-build"].

Definition example_history : list Operation :=
  [OpTriggerBuild "R1";
   OpClaimNext example_worker 5%Z;
   OpStartRunning 0%N 9%N;
   OpComplete 0%N 9%N false JobResult.SUCCESS_PENDING 6%Z;
   OpConfirmResult 0%N;
   OpForceTerminate 0%N 7%Z;
   OpStarvationSweep 100%Z 10%Z;
   OpClaimNext example_worker 101%Z].

(** The first job of the example after the first five operations. *)
Definition example_done_job : Job :=
  mkJob (Some 0%N) (Some JobStatus.DONE) (Some "isotope") (Some "os-image-build")
        (Some 7%N) None (Some "amd64") (Some 0%Z) (Some 5%Z) (Some 6%Z) None
        (Some 9%N) (Some JobResult.SUCCESS) None None.

(** The head of a list is served no later than any of its elements. *)
Definition head_first (l : list Job) : Prop :=
  ∀ c rest, l = c :: rest → ∀ x, x ∈ l → before c x = true.

(** The three jobs of the ordering scenario: (id, priority, creation time). *)
Definition waiting_job (u : UUID) (p : Z) (t : DateTime) : Job :=
  mkJob (Some u) (Some JobStatus.WAITING) (Some "isotope") (Some "os-image-build")
        None None (Some "amd64") (Some t) None None (Some p) None
        (Some JobResult.UNKNOWN) None None.
Definition job_A : Job := waiting_job 1%N 10%Z 1%Z.
Definition job_B : Job := waiting_job 2%N 20%Z 2%Z.
Definition job_C : Job := waiting_job 3%N 10%Z 2%Z.

(** Caller [c] holds job [a]: its call has returned [a]. *)
Definition holds (c : Claimant) (a : Job) : Prop := progress c = Returned (Some a).

(** What stays true of the callers and the store along every interleaving:
    ids in the store are unique; a held job is in the store, scheduled, with
    the holder as worker; and no two callers hold jobs of the same id. *)
Definition exclusive (s : System) : Prop :=
  NoDup (uuid <$> pool s)
  ∧ (∀ i c a, claimants s !! i = Some c → holds c a →
       a ∈ pool s ∧ status a = Some JobStatus.SCHEDULED
       ∧ worker a = Some (Worker.id (who c)))
  ∧ (∀ i k ci ck a b, claimants s !! i = Some ci → claimants s !! k = Some ck →
       holds ci a → holds ck b → uuid a = uuid b → i = k).

(** Store accesses a call may still need, for a store of [n] rows. *)
Definition budget (n : nat) (c : Claimant) : nat :=
  match progress c with
  | Polling => n + 2
  | Trying cands => length cands + 1
  | Returned _ => 0
  end.

(** Job [j] is the only job of the store eligible for each of the callers. *)
Definition only_eligible (callers : list (Worker.t * DateTime)) (pool0 : list Job)
    (j : Job) : Prop :=
  ∀ w now, (w, now) ∈ callers → List.filter (eligible w) pool0 = [j].

(** Where a call can be before [j] is claimed, and where a call that does
    not get [j] can be. *)
Definition waits_for (j : Job) (p : Progress) : Prop :=
  p = Polling ∨ p = Trying [j].
Definition loses (j : Job) (p : Progress) : Prop :=
  p = Polling ∨ p = Trying [j] ∨ p = Trying [] ∨ p = Returned None.

(** The race for [j]: nobody has it yet, or exactly one caller has it and
    the store shows it. *)
Definition race (callers : list (Worker.t * DateTime)) (pool0 : list Job) (j : Job)
    (s : System) : Prop :=
  (∀ k c, claimants s !! k = Some c → callers !! k = Some (who c, called_at c))
  ∧ ((pool s = pool0 ∧ ∀ k c, claimants s !! k = Some c → waits_for j (progress c))
     ∨ (∃ i w now,
          callers !! i = Some (w, now)
          ∧ pool s = claimed (uuid j) (Worker.id w) now pool0
          ∧ claimants s !! i
            = Some (mkClaimant w now (Returned (Some (assign (Worker.id w) now j))))
          ∧ ∀ k c, k ≠ i → claimants s !! k = Some c → loses j (progress c))).

(** Two workers that can both build for amd64, polling at different times. *)
Definition example_callers : list (Worker.t * DateTime) :=
  [(Worker.mk 9%N ["amd64"] ["os-image-build"], 5%Z);
   (Worker.mk 10%N ["amd64"; "arm64"] ["os-image-build"], 6%Z)].

(** *** Further examples *)

(** A store whose only job already has the id the next draw of
    [example_host] yields second. *)
Definition example_collision_world : World :=
  mkWorld [waiting_job 1%N 0%Z 0%Z] [recipe_R1] [] 0 0 None [].

(** The jobs a run of [trigger_image_build] adds to table [jobs]. *)
Definition added_jobs (h : Host) (n : string) (w : World) : list Job :=
  drop (length (jobs w)) (jobs (snd (trigger_image_build h n w))).

(** ** admin/lkadmin/isotope.py: the command entry point *)

(** [options], as [add_cli_parser] declares them: [--add-recipe] is a
    [store_true] flag, [--trigger-build] takes the name of a recipe and is
    [None] when absent. *)
Record Options := mkOptions {
  add_recipe : bool;
  trigger_build : option string
}.

(** The world and the lines written with plain [print()]. *)
Record Terminal := mkTerminal {
  world : World;
  printed : list string
}.

(** Truth value of an optional string in a condition: [None] and the empty
    string are false. *)
Definition is_given (o : option string) : bool :=
  match o with
  | Some s => negb (String.eqb s "")
  | None => false
  end.

(** A command of the session, run at the terminal. *)
Definition at_terminal (m : M unit) (t : Terminal) : (Exception + unit) * Terminal :=
  let '(r, w') := m (world t) in (r, mkTerminal w' (printed t)).

(** [module_isotope_init(options)].  [add_image_recipe] prompts for its
    answers through helpers outside the sources at hand and is taken as a
    parameter. *)
Definition module_isotope_init (add_image_recipe : Options → M unit) (h : Host)
    (options : Options) (t : Terminal) : (Exception + unit) * Terminal :=
  if add_recipe options then
    at_terminal (add_image_recipe options) t
  else if is_given (trigger_build options) then
    at_terminal (trigger_image_build h (default "" (trigger_build options))) t
  else
    (inl (SystemExit 1), mkTerminal (world t) (printed t ++ ["No action selected."])).

(** ** laniakea/utils/misc.py

    A Python [str] is the list of its code points.  The regular expressions
    of the module are run by a small backtracking matcher: a pattern maps
    the text still to be read to the list of texts that can remain after a
    match, in the order the [re] module tries them. *)

Module Misc.

(** A string literal of the source (ASCII only). *)
Definition lit (s : string) : list N := Ascii.N_of_ascii <$> String.list_ascii_of_string s.

(** [get_dir_shorthand_for_uuid(uuid)], on [s = str(uuid)]. *)
Definition get_dir_shorthand_for_uuid (s : list N) : option (list N) :=
  if 2 <? length s then Some (take 2 s) else None.

(** The Python values [listify] is used on. *)
#[warnings="-register-all"]
Inductive value :=
| VNone
| VBool (b : bool)
| VInt (z : Z)
| VStr (s : list N)
| VList (items : list value).

(** Truth value of an object in a condition. *)
Definition truthy (v : value) : bool :=
  match v with
  | VNone => false
  | VBool b => b
  | VInt z => negb (z =? 0)%Z
  | VStr s => negb (bool_decide (s = []))
  | VList items => match items with [] => false | _ => true end
  end.

(** [listify(item)] *)
Definition listify (item : value) : list value :=
  if negb (truthy item) then []
  else match item with
       | VList items => items
       | _ => [item]
       end.

(** [string.ascii_letters + string.digits] *)
Definition alphanumerics : list N :=
  lit "abcdefghijklmnopqrstuvwxyzABCDEFGHIJKLMNOPQRSTUVWXYZ0123456789".

(** [random_string(length)]; [choice n] is what the [n]-th call of
    [random.choice] picks from the sequence it is given. *)
Definition random_string (choice : nat → list N → N) (length : Z) : list N :=
  (λ n, choice n alphanumerics) <$> seq 0 (Z.to_nat length).

(** *** Patterns *)

(** The text after the literal [p], if the text starts with it. *)
Fixpoint strip_prefix (p s : list N) : option (list N) :=
  match p, s with
  | [], _ => Some s
  | a :: p', c :: s' => if (a =? c)%N then strip_prefix p' s' else None
  | _ :: _, [] => None
  end.

Definition re_lit (p : list N) (s : list N) : list (list N) :=
  match strip_prefix p s with
  | Some r => [r]
  | None => []
  end.

(** [r?]: with [r] first, then without. *)
Definition re_opt (r : list N → list (list N)) (s : list N) : list (list N) :=
  r s ++ [s].

(** [r1|r2] *)
Definition re_alt (r1 r2 : list N → list (list N)) (s : list N) : list (list N) :=
  r1 s ++ r2 s.

(** [r1 r2] *)
Definition re_seq (r1 r2 : list N → list (list N)) (s : list N) : list (list N) :=
  mjoin (r2 <$> r1 s).

(** A character class [[...]]. *)
Definition re_class (cls : N → bool) (s : list N) : list (list N) :=
  match s with
  | c :: s' => if cls c then [s'] else []
  | [] => []
  end.

(** [[...]*]: the longest run first, then each shorter one. *)
Fixpoint re_star_class (cls : N → bool) (s : list N) : list (list N) :=
  match s with
  | c :: s' => if cls c then re_star_class cls s' ++ [s] else [s]
  | [] => [[]]
  end.

(** [$]: at the end of the text, or just before a newline that ends it. *)
Definition re_end (s : list N) : list (list N) :=
  match s with
  | [] => [[]]
  | [c] => if (c =? 10)%N then [s] else []
  | _ => []
  end.

(** [pattern.match(s) is not None] *)
Definition re_match (r : list N → list (list N)) (s : list N) : bool :=
  match r s with
  | [] => false
  | _ => true
  end.

(** ['^(https?|ftps?)://'] *)
Definition uriregex : list N → list (list N) :=
  re_seq (re_alt (re_seq (re_lit (lit "http")) (re_opt (re_lit (lit "s"))))
                 (re_seq (re_lit (lit "ftp")) (re_opt (re_lit (lit "s")))))
         (re_lit (lit "://")).

(** [is_remote_url(uri)] *)
Definition is_remote_url (uri : list N) : bool := re_match uriregex uri.

Definition in_range (lo hi c : N) : bool := (lo <=? c)%N && (c <=? hi)%N.

(** [[a-zA-Z0-9]] *)
Definition is_alnum (c : N) : bool :=
  in_range 97 122 c || in_range 65 90 c || in_range 48 57 c.

(** [[a-zA-Z0-9_.~+-]] *)
Definition is_file_safe (c : N) : bool :=
  is_alnum c || bool_decide (c ∈ lit "_.~+-").

(** [[/a-zA-Z0-9_.~+-]] *)
Definition is_file_safe_slash (c : N) : bool :=
  bool_decide (c = 47%N) || is_file_safe c.

(** [re_file_safe = re.compile(r'^[a-zA-Z0-9][a-zA-Z0-9_.~+-]*$')] *)
Definition re_file_safe : list N → list (list N) :=
  re_seq (re_class is_alnum) (re_seq (re_star_class is_file_safe) re_end).

(** [re_file_safe_slash = re.compile(r'^[a-zA-Z0-9][/a-zA-Z0-9_.~+-]*$')] *)
Definition re_file_safe_slash : list N → list (list N) :=
  re_seq (re_class is_alnum) (re_seq (re_star_class is_file_safe_slash) re_end).

(** [check_filename_safe(fname)], on [str(fname)]. *)
Definition check_filename_safe (fname : list N) : bool :=
  if negb (re_match re_file_safe fname) then false else true.

(** [check_filepath_safe(path)], on [str(path)]. *)
Definition check_filepath_safe (path : list N) : bool :=
  if negb (re_match re_file_safe_slash path) then false else true.

(** *** [split_strip] *)

(** What [str.split] raises on an empty separator. *)
Inductive PyError := ValueError.

Definition starts_with (p s : list N) : bool :=
  match strip_prefix p s with
  | Some _ => true
  | None => false
  end.

(** [s.split(sep)] for a non-empty [sep], left to right: [cur] holds the
    part being read, reversed; [skip] counts the characters of a separator
    just found that are still to be passed over. *)
Fixpoint split_from (sep : list N) (skip : nat) (cur s : list N) : list (list N) :=
  match s with
  | [] => [reverse cur]
  | c :: s' =>
      match skip with
      | S k => split_from sep k cur s'
      | O =>
          if starts_with sep s
          then reverse cur :: split_from sep (length sep - 1) [] s'
          else split_from sep 0 (c :: cur) s'
      end
  end.

Definition str_split (s sep : list N) : PyError + list (list N) :=
  match sep with
  | [] => inl ValueError
  | _ => inr (split_from sep 0 [] s)
  end.

Fixpoint lstrip (isspace : N → bool) (s : list N) : list N :=
  match s with
  | c :: s' => if isspace c then lstrip isspace s' else s
  | [] => []
  end.

(** [part.strip()]; [isspace] is [str.isspace] on one character. *)
Definition strip (isspace : N → bool) (s : list N) : list N :=
  reverse (lstrip isspace (reverse (lstrip isspace s))).

(** The loop of [split_strip]: [res.append(part.strip())] for every part
    that is not empty. *)
Fixpoint strip_parts (isspace : N → bool) (parts : list (list N)) (res : list (list N))
    : list (list N) :=
  match parts with
  | [] => res
  | part :: parts' =>
      match part with
      | [] => strip_parts isspace parts' res
      | _ => strip_parts isspace parts' (res ++ [strip isspace part])
      end
  end.

(** [split_strip(s, sep)] *)
Definition split_strip (isspace : N → bool) (s sep : list N) : PyError + list (list N) :=
  match str_split s sep with
  | inl e => inl e
  | inr parts => inr (strip_parts isspace parts [])
  end.

End Misc.

(** The four beginnings of a text that [uriregex] matches. *)
Definition remote_prefixes : list (list N) :=
  [Misc.lit "http://"; Misc.lit "https://"; Misc.lit "ftp://"; Misc.lit "ftps://"].

(** A [random.choice] that always picks the first element. *)
Definition choose_first (n : nat) (l : list N) : N := default 0%N (head l).

(** [sep.join(parts)] *)
Fixpoint str_join (sep : list N) (parts : list (list N)) : list N :=
  match parts with
  | [] => []
  | p :: parts' =>
      match parts' with
      | [] => p
      | _ => p ++ sep ++ str_join sep parts'
      end
  end.

(** A blank: the one character [isspace] of the examples below accepts. *)
Definition is_blank (c : N) : bool := (c =? 32)%N.

(** * Properties *)

(** ** Running commands *)

Lemma flush_built h r archs : ∀ d c,
  flush h d c (built_job r <$> archs) =
  (stored_batch h r d c archs, d + length archs, c + length archs).
Proof.
  induction archs as [|a archs IH]; intros d c; simpl.
  - by rewrite !Nat.add_0_r.
  - rewrite IH. unfold stored_job. simpl. do 2 f_equal; lia.
Qed.

Lemma stored_batch_length h r archs : ∀ d c, length (stored_batch h r d c archs) = length archs.
Proof. induction archs; intros; simpl; auto. Qed.

Lemma stored_batch_architecture h r archs : ∀ d c,
  architecture <$> stored_batch h r d c archs = Some <$> archs.
Proof. induction archs; intros; simpl; f_equal; auto. Qed.

Lemma stored_batch_uuid h r archs : ∀ d c,
  uuid <$> stored_batch h r d c archs = (λ i, Some (uuid4 h i)) <$> seq d (length archs).
Proof. induction archs; intros; simpl; f_equal; auto. Qed.

Lemma stored_batch_fields h r archs : ∀ d c,
  Forall (λ j, trigger j = Some (ImageBuildRecipe.uuid r)
               ∧ module j = Some LkModule.ISOTOPE
               ∧ kind j = Some JobKind.OS_IMAGE_BUILD
               ∧ status j = Some JobStatus.WAITING
               ∧ result j = Some JobResult.UNKNOWN
               ∧ priority j = None ∧ worker j = None)
         (stored_batch h r d c archs).
Proof. induction archs; intros; simpl; constructor; auto 10. Qed.

Lemma stored_batch_not_null h r archs d c : Forall not_null (stored_batch h r d c archs).
Proof.
  revert d c. induction archs; intros; simpl; constructor; auto.
  unfold not_null; simpl; eauto.
Qed.

Lemma session_op_run w :
  session_op w =
  if survives 1 (fuse w) then (inr (), set_fuse (burn 1 (fuse w)) w)
  else (inl SimulatedFailure, set_fuse None w).
Proof.
  unfold session_op. destruct w as [? ? ? ? ? [[|m]|] ?]; simpl; try done.
  by rewrite Nat.sub_0_r.
Qed.

Lemma loop_run r archs : ∀ acc w,
  for_in archs (add_job r) acc w =
  if survives (length archs) (fuse w)
  then (inr (acc + length archs),
        set_fuse (burn (length archs) (fuse w))
          (set_session_new (session_new w ++ (built_job r <$> archs)) w))
  else (inl SimulatedFailure,
        set_fuse None (set_session_new
          (session_new w ++ (built_job r <$> take (default 0 (fuse w)) archs)) w)).
Proof.
  induction archs as [|a archs IH]; intros acc w.
  - destruct w as [? ? ? ? ? [m|] ?]; simpl; unfold mret, M_ret, set_fuse, set_session_new; simpl;
      rewrite ?app_nil_r, ?Nat.add_0_r, ?Nat.sub_0_r; done.
  - cbn [for_in]. unfold mbind, M_bind, add_job at 1, session_add.
    unfold mbind, M_bind. rewrite session_op_run.
    destruct w as [js rs new d c [[|m]|] out]; simpl.
    + unfold set_fuse, set_session_new; simpl. by rewrite app_nil_r.
    + unfold modify, mret, M_ret; simpl. rewrite IH; simpl.
      rewrite Nat.sub_0_r.
      destruct (length archs <=? m)%nat eqn:E; unfold set_fuse, set_session_new; simpl;
        rewrite <- app_assoc; simpl.
      * do 2 f_equal; lia.
      * done.
    + unfold modify, mret, M_ret; simpl. rewrite IH; simpl.
      unfold set_fuse, set_session_new; simpl.
      rewrite <- app_assoc; simpl. do 2 f_equal; lia.
Qed.

Lemma survives_burn a b f :
  survives a f = true → survives b (burn a f) = survives (a + b) f.
Proof.
  destruct f as [m|]; simpl; [|done]. intros Ha%Nat.leb_le.
  destruct (Nat.leb_spec b (m - a)), (Nat.leb_spec (a + b) m); auto; lia.
Qed.

Lemma survives_false a b f : survives a f = false → a ≤ b → survives b f = false.
Proof.
  destruct f as [m|]; unfold survives; [|done].
  intros Ha%Nat.leb_gt Hab. apply Nat.leb_gt. lia.
Qed.

Lemma burn_burn a b f : burn b (burn a f) = burn (a + b) f.
Proof. destruct f as [m|]; simpl; [|done]. f_equal; lia. Qed.

Lemma constraints_ok_nil table : constraints_ok table [].
Proof. repeat split; constructor. Qed.

Ltac world_simpl :=
  unfold session_rollback, session_close,
         set_jobs, set_session_new, set_counters, set_fuse, set_stdout;
  cbn [jobs recipes session_new uuid_draws clock_reads fuse stdout app].

Lemma run_bind {A B} (m : M A) (f : A → M B) w :
  (m ≫= f) w = match m w with
               | (inr a, w') => f a w'
               | (inl e, w') => (inl e, w')
               end.
Proof. reflexivity. Qed.

(** What one run of [trigger_image_build] does, case by case. *)
Lemma trigger_image_build_run h n w :
  trigger_image_build h n w =
  let w0 := set_session_new [] w in
  if survives 1 (fuse w) then
    match filter (λ r, ImageBuildRecipe.name r = n) (recipes w) with
    | [] => (inl (SystemExit 2),
             set_fuse (burn 1 (fuse w)) (set_stdout (stdout w ++ [NoteRecipeNotFound n]) w0))
    | [r] =>
        let archs := ImageBuildRecipe.architectures r in
        let k := length archs in
        if survives (k + 2) (fuse w) then
          let rows := stored_batch h r (uuid_draws w) (clock_reads w) archs in
          if decide (constraints_ok (jobs w) rows) then
            (if survives (k + 3) (fuse w) then inr () else inl SimulatedFailure,
             mkWorld (jobs w ++ rows) (recipes w) [] (uuid_draws w + k) (clock_reads w + k)
                     (if survives (k + 3) (fuse w) then burn (k + 3) (fuse w) else None)
                     (stdout w ++ [DoneScheduled k (ImageBuildRecipe.name r)]))
          else
            (inl IntegrityError,
             mkWorld (jobs w) (recipes w) [] (uuid_draws w + k) (clock_reads w + k)
                     (burn (k + 2) (fuse w)) (stdout w))
        else (inl SimulatedFailure, set_fuse None w0)
    | _ => (inl MultipleResultsFound, set_fuse (burn 1 (fuse w)) w0)
    end
  else (inl SimulatedFailure, set_fuse None w0).
Proof.
  destruct w as [js rs new d c f out].
  unfold trigger_image_build, session_scope, query_recipe_one_or_none.
  rewrite !run_bind, session_op_run. world_simpl.
  destruct (survives 1 f) eqn:S1; [|done].
  rewrite run_bind. unfold gets. world_simpl.
  destruct (filter _ rs) as [|r [|r' rs']] eqn:Q; [done| |done].
  cbn [mret M_ret]. rewrite run_bind.
  change (for_in (ImageBuildRecipe.architectures r) _ 0)
    with (for_in (ImageBuildRecipe.architectures r) (add_job r) 0).
  rewrite loop_run. world_simpl. rewrite (survives_burn 1 _ _ S1).
  set (k := length (ImageBuildRecipe.architectures r)).
  destruct (survives (1 + k) f) eqn:S2.
  2:{ by rewrite (survives_false (1 + k) (k + 2)) by (done || lia). }
  rewrite run_bind. unfold session_commit at 1. rewrite run_bind, session_op_run.
  world_simpl. rewrite !burn_burn.
  rewrite (survives_burn (1 + k) 1) by done.
  replace (1 + k + 1) with (k + 2) by lia.
  destruct (survives (k + 2) f) eqn:S3; [|done].
  unfold flush_and_store at 1. world_simpl.
  rewrite flush_built. fold k.
  destruct (decide (constraints_ok _ _)) as [Hok|Hbad]; [|done].
  unfold print, modify. world_simpl.
  unfold session_commit. rewrite run_bind, session_op_run.
  world_simpl. rewrite (survives_burn (k + 2) 1) by done.
  replace (k + 2 + 1) with (k + 3) by lia.
  destruct (survives (k + 3) f) eqn:S4; [|done].
  unfold flush_and_store. world_simpl. cbn [flush].
  rewrite decide_True by apply constraints_ok_nil.
  world_simpl. rewrite app_nil_r, burn_burn. by replace (k + 2 + 1) with (k + 3) by lia.
Qed.

Lemma recipe_named_name n w r : recipe_named n w r → ImageBuildRecipe.name r = n.
Proof.
  unfold recipe_named. intros H.
  assert (Hin : r ∈ filter (λ r, ImageBuildRecipe.name r = n) (recipes w))
    by (rewrite H; apply list_elem_of_singleton; done).
  by apply list_elem_of_filter in Hin as [? _].
Qed.

Lemma recipe_named_elem n w r : recipe_named n w r → r ∈ recipes w.
Proof.
  unfold recipe_named. intros H.
  assert (Hin : r ∈ filter (λ r, ImageBuildRecipe.name r = n) (recipes w))
    by (rewrite H; apply list_elem_of_singleton; done).
  by apply list_elem_of_filter in Hin as [_ ?].
Qed.

Lemma fresh_constraints h r w :
  fresh_uuids h w (length (ImageBuildRecipe.architectures r)) →
  constraints_ok (jobs w)
    (stored_batch h r (uuid_draws w) (clock_reads w) (ImageBuildRecipe.architectures r)).
Proof.
  unfold fresh_uuids, next_uuids. intros (Htable & Hdisj & Hnew)%NoDup_app.
  split; [apply stored_batch_not_null|].
  split; [by rewrite stored_batch_uuid|].
  apply Forall_forall. intros j Hj Hin. apply (Hdisj _ Hin).
  rewrite <- (stored_batch_uuid h r _ _ (clock_reads w)).
  by apply list_elem_of_fmap_2.
Qed.

(** A run that nothing disturbs. *)
Lemma trigger_image_build_ok h n r w :
  recipe_named n w r →
  fuse w = None →
  constraints_ok (jobs w)
    (stored_batch h r (uuid_draws w) (clock_reads w) (ImageBuildRecipe.architectures r)) →
  trigger_image_build h n w =
  (inr (),
   mkWorld (jobs w ++ stored_batch h r (uuid_draws w) (clock_reads w)
                        (ImageBuildRecipe.architectures r))
           (recipes w) []
           (uuid_draws w + length (ImageBuildRecipe.architectures r))
           (clock_reads w + length (ImageBuildRecipe.architectures r))
           None
           (stdout w ++ [DoneScheduled (length (ImageBuildRecipe.architectures r)) n])).
Proof.
  intros Hr Hfuse Hok. rewrite trigger_image_build_run.
  rewrite Hr, Hfuse. cbn [survives burn fmap option_fmap option_map].
  rewrite decide_True by done. by rewrite (recipe_named_name _ _ _ Hr).
Qed.

(** ** Triggering builds *)

(** C2: for a recipe with [k] architectures, [trigger_image_build] stores
    exactly [k] new jobs, one per architecture and in the order of the
    list; all of them carry the recipe's id as trigger, the module
    [isotope] and the kind [os-image-build], and each has status [WAITING]
    and result [UNKNOWN]. *)
Theorem C2_trigger_creates_one_job_per_architecture
    (h : Host) (n : string) (r : ImageBuildRecipe.t) (w : World) :
  let archs := ImageBuildRecipe.architectures r in
  recipe_named n w r →
  fuse w = None →
  fresh_uuids h w (length archs) →
  ∃ (batch : list Job) (w' : World),
    trigger_image_build h n w = (inr (), w')
    ∧ jobs w' = jobs w ++ batch
    ∧ length batch = length archs
    ∧ architecture <$> batch = Some <$> archs
    ∧ Forall (created_as r) batch
    ∧ stdout w' = stdout w ++ [DoneScheduled (length archs) n].
Proof.
  intros archs Hr Hfuse Hfresh.
  eexists _, _. split.
  { apply trigger_image_build_ok; eauto using fresh_constraints. }
  cbn [jobs stdout]. repeat split.
  - apply stored_batch_length.
  - apply stored_batch_architecture.
  - eapply Forall_impl; [apply stored_batch_fields|].
    intros j (?&?&?&?&?&_). by repeat split.
Qed.

Lemma C2_witness :
  ∃ batch w',
    trigger_image_build example_host "R1" example_world = (inr (), w')
    ∧ jobs w' = batch
    ∧ length batch = 2
    ∧ architecture <$> batch = [Some "amd64"; Some "arm64"]
    ∧ Forall (created_as recipe_R1) batch
    ∧ stdout w' = [DoneScheduled 2 "R1"].
Proof.
  apply (C2_trigger_creates_one_job_per_architecture example_host "R1" recipe_R1 example_world).
  - reflexivity.
  - reflexivity.
  - apply (bool_decide_unpack _). vm_compute. exact I.
Defined.

Lemma triggered_by_app t l1 l2 :
  triggered_by t (l1 ++ l2) = triggered_by t l1 ++ triggered_by t l2.
Proof. apply List.filter_app. Qed.

Lemma triggered_by_all t l :
  Forall (λ j, trigger j = Some t) l → triggered_by t l = l.
Proof.
  induction 1 as [|j l Hj _ IH]; [done|]. unfold triggered_by in *. simpl.
  by rewrite bool_decide_eq_true_2, IH.
Qed.

Lemma stored_batch_triggered h r archs d c :
  triggered_by (ImageBuildRecipe.uuid r) (stored_batch h r d c archs)
  = stored_batch h r d c archs.
Proof.
  apply triggered_by_all. eapply Forall_impl; [apply stored_batch_fields|].
  by intros j (?&_).
Qed.

Lemma stored_batch_created h r archs d c :
  Forall (created_as r) (stored_batch h r d c archs).
Proof.
  eapply Forall_impl; [apply stored_batch_fields|].
  intros j (?&?&?&?&?&_). by repeat split.
Qed.

(** C3 (as stated, refuted): the recipe [R0] lists no architecture, and
    [trigger_image_build] on it does not fail: there is no exception at all,
    a validation error or any other. *)
Lemma C3_counterexample :
  recipe_named "R0" example_world recipe_R0
  ∧ ImageBuildRecipe.architectures recipe_R0 = []
  ∧ ¬ ∃ e w', trigger_image_build example_host "R0" example_world = (inl e, w').
Proof.
  split; [reflexivity|]. split; [reflexivity|].
  intros (e & w' & H). vm_compute in H. discriminate H.
Qed.

(** C3 (amended): for a recipe whose architecture list is empty,
    [trigger_image_build] creates no job, whatever else happens; and when
    no session operation fails it returns normally, reporting 0 scheduled
    jobs, with the store as it was. *)
Theorem C3_empty_architectures_schedule_nothing
    (h : Host) (n : string) (r : ImageBuildRecipe.t) (w : World) :
  recipe_named n w r →
  ImageBuildRecipe.architectures r = [] →
  jobs (snd (trigger_image_build h n w)) = jobs w
  ∧ (fuse w = None →
     trigger_image_build h n w =
     (inr (), mkWorld (jobs w) (recipes w) [] (uuid_draws w) (clock_reads w) None
                      (stdout w ++ [DoneScheduled 0 n]))).
Proof.
  intros Hr Harchs. split.
  - rewrite trigger_image_build_run. cbv zeta. rewrite Hr, Harchs.
    cbn [stored_batch]. rewrite decide_True by apply constraints_ok_nil.
    repeat case_match; world_simpl; cbn [snd jobs]; by rewrite ?app_nil_r.
  - intros Hfuse. rewrite (trigger_image_build_ok h n r w Hr Hfuse).
    + rewrite Harchs. simpl. by rewrite app_nil_r, !Nat.add_0_r.
    + rewrite Harchs. apply constraints_ok_nil.
Qed.

Lemma C3_witness :
  jobs (snd (trigger_image_build example_host "R0" example_world)) = []
  ∧ (fuse example_world = None →
     trigger_image_build example_host "R0" example_world =
     (inr (), mkWorld [] [recipe_R1; recipe_R0] [] 0 0 None [DoneScheduled 0 "R0"])).
Proof.
  apply (C3_empty_architectures_schedule_nothing example_host "R0" recipe_R0 example_world).
  - reflexivity.
  - reflexivity.
Defined.

(** C4: job creation by [trigger_image_build] is all or nothing.  Whatever
    session operation fails, and whatever the recipe lookup or the table's
    constraints say, the call appends a batch to table [jobs] that is
    either empty or holds one job per architecture of the recipe, each
    carrying the recipe's id as trigger; a normal return means the whole
    batch; a failure of any operation up to and including the commit means
    the empty one.  Counting the jobs that carry the trigger reference, when
    none did before: [k] afterwards, or zero. *)
Theorem C4_trigger_all_or_nothing (h : Host) (n : string) (w : World) :
  ∃ batch : list Job,
    jobs (snd (trigger_image_build h n w)) = jobs w ++ batch
    ∧ session_new (snd (trigger_image_build h n w)) = []
    ∧ (batch = []
       ∨ ∃ r, recipe_named n w r
              ∧ length batch = length (ImageBuildRecipe.architectures r)
              ∧ architecture <$> batch = Some <$> ImageBuildRecipe.architectures r
              ∧ Forall (created_as r) batch)
    ∧ (∀ r, recipe_named n w r →
         (fst (trigger_image_build h n w) = inr () →
            length batch = length (ImageBuildRecipe.architectures r))
         ∧ (∀ m, fuse w = Some m → m ≤ S (length (ImageBuildRecipe.architectures r)) →
            batch = [] ∧ fst (trigger_image_build h n w) = inl SimulatedFailure)
         ∧ (triggered_by (ImageBuildRecipe.uuid r) (jobs w) = [] →
            length (triggered_by (ImageBuildRecipe.uuid r)
                      (jobs (snd (trigger_image_build h n w))))
              = length (ImageBuildRecipe.architectures r)
            ∨ length (triggered_by (ImageBuildRecipe.uuid r)
                        (jobs (snd (trigger_image_build h n w)))) = 0)).
Proof.
  rewrite trigger_image_build_run. cbv zeta.
  assert (Hnone : ∀ t, triggered_by t (jobs w) = [] →
                       length (triggered_by t (jobs w)) = 0).
  { intros t Ht. by rewrite Ht. }
  destruct (survives 1 (fuse w)) eqn:S1.
  2:{ exists []. world_simpl. cbn [fst snd jobs session_new].
      split; [by rewrite app_nil_r|]. split; [done|]. split; [by left|].
      intros r Hr. split; [done|]. split; [done|]. right. by apply Hnone. }
  destruct (filter _ (recipes w)) as [|r [|r' rs]] eqn:Q.
  1,3: exists []; world_simpl; cbn [fst snd jobs session_new];
       (split; [by rewrite app_nil_r|]); (split; [done|]); (split; [by left|]);
       intros r0 Hr0; unfold recipe_named in Hr0; congruence.
  set (k := length (ImageBuildRecipe.architectures r)).
  destruct (survives (k + 2) (fuse w)) eqn:S2.
  2:{ exists []. world_simpl. cbn [fst snd jobs session_new].
      split; [by rewrite app_nil_r|]. split; [done|]. split; [by left|].
      intros r0 Hr0. split; [done|]. split; [done|]. right. by apply Hnone. }
  assert (Hfuse : ∀ m, fuse w = Some m → ¬ m ≤ S k).
  { intros m Hm Hle. rewrite Hm in S2. simpl in S2. apply Nat.leb_le in S2. lia. }
  destruct (decide (constraints_ok _ _)) as [Hok|Hbad].
  2:{ exists []. cbn [fst snd jobs session_new].
      split; [by rewrite app_nil_r|]. split; [done|]. split; [by left|].
      intros r0 Hr0. unfold recipe_named in Hr0. rewrite Q in Hr0. injection Hr0 as <-.
      split; [done|]. split; [|right; by apply Hnone].
      intros m Hm Hle. by destruct (Hfuse m Hm). }
  exists (stored_batch h r (uuid_draws w) (clock_reads w) (ImageBuildRecipe.architectures r)).
  cbn [fst snd jobs session_new]. split; [done|]. split; [done|]. split.
  { right. exists r. split; [done|].
    split; [apply stored_batch_length|].
    split; [apply stored_batch_architecture|apply stored_batch_created]. }
  intros r0 Hr0. unfold recipe_named in Hr0. rewrite Q in Hr0. injection Hr0 as <-.
  split; [intros _; apply stored_batch_length|]. split.
  - intros m Hm Hle. by destruct (Hfuse m Hm).
  - intros Hfresh. left.
    by rewrite triggered_by_app, Hfresh, app_nil_l, stored_batch_triggered,
      stored_batch_length.
Qed.

Lemma C4_witness :
  ∃ batch : list Job,
    jobs (snd (trigger_image_build example_host "R1" (set_fuse (Some 2) example_world)))
      = [] ++ batch
    ∧ batch = []
    ∧ fst (trigger_image_build example_host "R1" (set_fuse (Some 2) example_world))
      = inl SimulatedFailure.
Proof.
  destruct (C4_trigger_all_or_nothing example_host "R1" (set_fuse (Some 2) example_world))
    as (batch & Hjobs & _ & _ & Hr).
  destruct (Hr recipe_R1 eq_refl) as (_ & Hfail & _).
  destruct (Hfail 2 eq_refl) as [-> Hres].
  - vm_compute. lia.
  - exists []. by repeat split.
Defined.

Lemma next_uuids_split h w k1 k2 :
  next_uuids h w (k1 + k2)
  = next_uuids h w k1
    ++ ((λ i, Some (uuid4 h i)) <$> seq (uuid_draws w + k1) k2).
Proof. unfold next_uuids. by rewrite seq_app, fmap_app. Qed.

(** C5: triggering the same recipe twice succeeds twice and stores two
    batches of [k] jobs each.  When no job carried the recipe's id before,
    exactly [2k] jobs carry it afterwards, namely the jobs of the two
    batches, and their ids are all set and pairwise different: nothing is
    de-duplicated. *)
Theorem C5_trigger_twice_creates_two_batches
    (h : Host) (n : string) (r : ImageBuildRecipe.t) (w : World) :
  let k := length (ImageBuildRecipe.architectures r) in
  recipe_named n w r →
  fuse w = None →
  fresh_uuids h w (k + k) →
  triggered_by (ImageBuildRecipe.uuid r) (jobs w) = [] →
  ∃ (w1 w2 : World) (batch1 batch2 : list Job),
    trigger_image_build h n w = (inr (), w1)
    ∧ trigger_image_build h n w1 = (inr (), w2)
    ∧ jobs w1 = jobs w ++ batch1
    ∧ jobs w2 = jobs w ++ batch1 ++ batch2
    ∧ length batch1 = k ∧ length batch2 = k
    ∧ triggered_by (ImageBuildRecipe.uuid r) (jobs w2) = batch1 ++ batch2
    ∧ length (triggered_by (ImageBuildRecipe.uuid r) (jobs w2)) = 2 * k
    ∧ Forall (λ j, is_Some (uuid j)) (batch1 ++ batch2)
    ∧ NoDup (uuid <$> jobs w2).
Proof.
  intros k Hr Hfuse Hfresh Hnone.
  set (archs := ImageBuildRecipe.architectures r) in *.
  unfold fresh_uuids in Hfresh. rewrite next_uuids_split, app_assoc in Hfresh.
  assert (Hfresh1 : NoDup ((uuid <$> jobs w) ++ next_uuids h w k)).
  { by apply NoDup_app in Hfresh as [? _]. }
  set (b1 := stored_batch h r (uuid_draws w) (clock_reads w) archs).
  set (w1 := mkWorld (jobs w ++ b1) (recipes w) [] (uuid_draws w + k) (clock_reads w + k)
                     None (stdout w ++ [DoneScheduled k n])).
  set (b2 := stored_batch h r (uuid_draws w1) (clock_reads w1) archs).
  assert (H1 : trigger_image_build h n w = (inr (), w1)).
  { apply trigger_image_build_ok; [done..|]. by apply fresh_constraints. }
  assert (Huuid1 : uuid <$> jobs w1 = (uuid <$> jobs w) ++ next_uuids h w k).
  { unfold w1, b1. cbn [jobs]. by rewrite fmap_app, stored_batch_uuid. }
  assert (Hfresh2 : fresh_uuids h w1 k).
  { unfold fresh_uuids. rewrite Huuid1. exact Hfresh. }
  exists w1, (mkWorld (jobs w1 ++ b2) (recipes w1) [] (uuid_draws w1 + k) (clock_reads w1 + k)
                      None (stdout w1 ++ [DoneScheduled k n])), b1, b2.
  split; [done|]. split.
  { apply trigger_image_build_ok; [done..|]. by apply fresh_constraints. }
  cbn [jobs]. change (jobs w1) with (jobs w ++ b1).
  split; [done|]. split; [by rewrite app_assoc|].
  split; [apply stored_batch_length|]. split; [apply stored_batch_length|].
  assert (Hall : triggered_by (ImageBuildRecipe.uuid r) ((jobs w ++ b1) ++ b2) = b1 ++ b2).
  { rewrite !triggered_by_app, Hnone. unfold b1, b2.
    by rewrite !stored_batch_triggered. }
  split; [done|]. split.
  { rewrite Hall, length_app. unfold b1, b2. rewrite !stored_batch_length. fold k. lia. }
  split.
  { apply Forall_app. split; (eapply Forall_impl; [apply stored_batch_not_null|]);
      by intros j (?&_). }
  change (jobs w ++ b1) with (jobs w1). rewrite fmap_app, Huuid1.
  unfold b2. rewrite stored_batch_uuid. exact Hfresh.
Qed.

Lemma C5_witness :
  ∃ (w1 w2 : World) (batch1 batch2 : list Job),
    trigger_image_build example_host "R1" example_world = (inr (), w1)
    ∧ trigger_image_build example_host "R1" w1 = (inr (), w2)
    ∧ jobs w1 = batch1
    ∧ jobs w2 = batch1 ++ batch2
    ∧ length batch1 = 2 ∧ length batch2 = 2
    ∧ triggered_by 7%N (jobs w2) = batch1 ++ batch2
    ∧ length (triggered_by 7%N (jobs w2)) = 4
    ∧ Forall (λ j, is_Some (uuid j)) (batch1 ++ batch2)
    ∧ NoDup (uuid <$> jobs w2).
Proof.
  apply (C5_trigger_twice_creates_two_batches example_host "R1" recipe_R1 example_world).
  - reflexivity.
  - reflexivity.
  - apply (bool_decide_unpack _). vm_compute. exact I.
  - reflexivity.
Defined.

(** ** The job record *)






(** ** The state machine *)

Lemma seven_statuses_spec s : s ∈ seven_statuses ↔ s ≠ JobStatus.UNKNOWN.
Proof.
  split.
  - intros Hin ->. apply (bool_decide_pack _) in Hin. by vm_compute in Hin.
  - intros Hs. destruct s; try done; by apply (bool_decide_unpack _).
Qed.

Lemma status_in_seven_set s j :
  s ≠ JobStatus.UNKNOWN → status_in_seven (set_status (Some s) j).
Proof. intros Hs. exists s. split; [done|]. by apply seven_statuses_spec. Qed.

Lemma evolves_refl j : evolves j j.
Proof. by repeat split. Qed.

Lemma evolves_same_status j j' :
  uuid j' = uuid j → status j' = status j → evolves j j'.
Proof.
  intros Hu Hs. split; [done|]. split; [done|].
  unfold status_in_seven. by rewrite Hs.
Qed.

(** A move to a new status, from a job that is not terminal. *)
Lemma evolves_move j j' s :
  uuid j' = uuid j → status j' = Some s → s ≠ JobStatus.UNKNOWN →
  ¬ terminal_job j → evolves j j'.
Proof.
  intros Hu Hs Hne Hnt. split; [done|]. split; [done|].
  intros _. exists s. split; [done|]. by apply seven_statuses_spec.
Qed.

Lemma non_terminal_spec j : non_terminal j = true → ¬ terminal_job j.
Proof.
  unfold non_terminal, terminal, terminal_job.
  destruct (status j) as [[]|]; simpl; intros H [?|?]; congruence.
Qed.

Ltac transition :=
  let H := fresh in
  intros H;
  repeat match type of H with
         | (if ?b then _ else _) = _ => destruct b eqn:?; [|discriminate H]
         end;
  injection H as <-.

Ltac not_terminal :=
  unfold held_by, terminal_job in *;
  repeat match goal with
         | H : _ && _ = true |- _ => apply andb_true_iff in H as [??]
         | H : bool_decide _ = true |- _ => apply bool_decide_eq_true in H
         end;
  intros [?|?]; congruence.

Lemma StartRunning_evolves caller j j' : StartRunning caller j = inr j' → evolves j j'.
Proof.
  unfold StartRunning. transition.
  eapply evolves_move; [done|done|done|not_terminal].
Qed.

Lemma ReportProgress_evolves caller log j j' :
  ReportProgress caller log j = inr j' → evolves j j'.
Proof. unfold ReportProgress. transition. by apply evolves_same_status. Qed.

Lemma Complete_evolves caller u res now j j' :
  Complete caller u res now j = inr j' → evolves j j'.
Proof.
  unfold Complete. transition.
  eapply evolves_move; [done|done| |not_terminal]. by destruct u.
Qed.

Lemma MarkDependencyWait_evolves j j' : MarkDependencyWait j = inr j' → evolves j j'.
Proof.
  unfold MarkDependencyWait. transition.
  eapply evolves_move; [done|done|done|not_terminal].
Qed.

Lemma ClearDependencyWait_evolves j j' : ClearDependencyWait j = inr j' → evolves j j'.
Proof.
  unfold ClearDependencyWait. transition.
  eapply evolves_move; [done|done|done|not_terminal].
Qed.

Lemma ForceTerminate_evolves now j j' : ForceTerminate now j = inr j' → evolves j j'.
Proof.
  unfold ForceTerminate. transition.
  eapply evolves_move; [done|done|done|by apply non_terminal_spec].
Qed.

Lemma AbortDependency_evolves now j j' : AbortDependency now j = inr j' → evolves j j'.
Proof.
  unfold AbortDependency. transition.
  eapply evolves_move; [done|done|done|by apply non_terminal_spec].
Qed.

Lemma RevokeClaim_evolves j j' : RevokeClaim j = inr j' → evolves j j'.
Proof.
  unfold RevokeClaim. transition.
  eapply evolves_move; [done|done|done|not_terminal].
Qed.

Lemma BoostPriority_evolves p j j' : BoostPriority p j = inr j' → evolves j j'.
Proof.
  unfold BoostPriority. transition.
  eapply evolves_move; [done|done|done|not_terminal].
Qed.

Lemma ConfirmResult_evolves j j' : ConfirmResult j = inr j' → evolves j j'.
Proof.
  unfold ConfirmResult. intros H.
  destruct (_ || _); [|discriminate H].
  destruct (result j) as [[]|]; try discriminate H;
    injection H as <-; by apply evolves_same_status.
Qed.

Lemma claimable_not_terminal j : claimable j = true → ¬ terminal_job j.
Proof.
  unfold claimable, terminal_job.
  intros [H|H]%orb_true_iff; apply bool_decide_eq_true in H; intros [?|?]; congruence.
Qed.

Lemma claim_evolves x wid now j :
  evolves j (if claim_target x j then assign wid now j else j).
Proof.
  destruct (claim_target x j) eqn:E; [|apply evolves_refl].
  apply andb_true_iff in E as [_ Hc].
  eapply evolves_move; [done|done|done|by apply claimable_not_terminal].
Qed.

Lemma sweep_evolves now threshold j :
  evolves j (if starving now threshold j then set_status (Some JobStatus.STARVING) j else j).
Proof.
  destruct (starving now threshold j) eqn:E; [|apply evolves_refl].
  apply andb_true_iff in E as [Hc _].
  eapply evolves_move; [done|done|done|not_terminal].
Qed.

Lemma Forall2_evolves_refl l : Forall2 evolves l l.
Proof. induction l; constructor; auto using evolves_refl. Qed.

Lemma Forall2_evolves_fmap (g : Job → Job) l :
  (∀ j, evolves j (g j)) → Forall2 evolves l (g <$> l).
Proof. intros Hg. induction l; simpl; constructor; auto. Qed.

Lemma on_job_evolves jid f pool :
  (∀ j j', f j = inr j' → evolves j j') →
  Forall2 evolves pool (settle (on_job jid f pool) pool).
Proof.
  intros Hf. unfold on_job.
  destruct (list_find _ pool) as [[i j]|] eqn:Hfind; [|apply Forall2_evolves_refl].
  apply list_find_Some in Hfind as (Hi & _ & _).
  destruct (f j) as [e|j'] eqn:Hfj; simpl; [apply Forall2_evolves_refl|].
  rewrite <- (list_insert_id pool i j Hi) at 1.
  apply Forall2_insert; [apply Forall2_evolves_refl|by apply Hf].
Qed.

Lemma claim_first_evolves w now cands : ∀ pool,
  Forall2 evolves pool (snd (claim_first w now cands pool)).
Proof.
  induction cands as [|c cands IH]; intros pool; simpl; [apply Forall2_evolves_refl|].
  unfold conditional_claim. destruct (List.filter _ pool); [apply IH|]. simpl.
  unfold claimed. apply Forall2_evolves_fmap. intros r. apply claim_evolves.
Qed.

Lemma perform_on_jobs_evolves op pool :
  Forall2 evolves pool (perform_on_jobs op pool).
Proof.
  destruct op; simpl;
    try (apply on_job_evolves;
         eauto using StartRunning_evolves, ReportProgress_evolves, Complete_evolves,
           MarkDependencyWait_evolves, ClearDependencyWait_evolves, ForceTerminate_evolves,
           AbortDependency_evolves, RevokeClaim_evolves, BoostPriority_evolves,
           ConfirmResult_evolves).
  - apply Forall2_evolves_refl.
  - apply claim_first_evolves.
  - apply Forall2_evolves_fmap. intros j. apply sweep_evolves.
Qed.

(** The rows a trigger appends all wait. *)
Lemma trigger_image_build_appends h n w :
  ∃ batch, jobs (snd (trigger_image_build h n w)) = jobs w ++ batch
           ∧ Forall (λ j, status j = Some JobStatus.WAITING) batch.
Proof.
  rewrite trigger_image_build_run. cbv zeta.
  assert (Hnil : ∃ batch, jobs w = jobs w ++ batch
                   ∧ Forall (λ j, status j = Some JobStatus.WAITING) batch).
  { exists []. split; [by rewrite app_nil_r|constructor]. }
  destruct (survives 1 (fuse w)); [|by world_simpl].
  destruct (filter _ (recipes w)) as [|r [|r' rs]]; [by world_simpl| |by world_simpl].
  destruct (survives _ (fuse w)); [|by world_simpl].
  destruct (decide (constraints_ok _ _)); [|done].
  eexists. split; [done|].
  eapply Forall_impl; [apply stored_batch_fields|]. by intros j (?&?&?&?&?).
Qed.

(** One operation: the old rows evolve in place, new rows wait. *)
Lemma perform_rows h op w :
  ∃ rows batch,
    jobs (perform h op w) = rows ++ batch
    ∧ Forall2 evolves (jobs w) rows
    ∧ Forall (λ j, status j = Some JobStatus.WAITING) batch.
Proof.
  destruct op;
    try (eexists _, []; rewrite app_nil_r; split; [reflexivity|];
         split; [apply perform_on_jobs_evolves|constructor]).
  destruct (trigger_image_build_appends h recipe_name w) as (batch & Hjobs & Hbatch).
  exists (jobs w), batch. simpl. split; [done|].
  split; [apply Forall2_evolves_refl|done].
Qed.

Lemma perform_all_cons h op ops w :
  perform_all h (op :: ops) w = perform_all h ops (perform h op w).
Proof. reflexivity. Qed.

(** C8: [DONE] and [TERMINATED] are terminal.  A stored job whose status is
    one of the two keeps its place in the table, its id and its status
    through every sequence of operations: triggers, claims, starts, progress
    reports, completions, dependency marking, forced termination, dependency
    aborts, claim revocation, priority boosts, result confirmation and
    starvation sweeps, whether they succeed or are rejected. *)
Theorem C8_done_and_terminated_are_terminal
    (h : Host) (ops : list Operation) (w : World) (i : nat) (j : Job) :
  jobs w !! i = Some j →
  terminal_job j →
  ∃ j', jobs (perform_all h ops w) !! i = Some j'
        ∧ uuid j' = uuid j
        ∧ status j' = status j.
Proof.
  revert w j. induction ops as [|op ops IH]; intros w j Hi Hterm.
  - exists j. by repeat split.
  - rewrite perform_all_cons.
    destruct (perform_rows h op w) as (rows & batch & Hjobs & Hrows & _).
    destruct (Forall2_lookup_l _ _ _ _ _ Hrows Hi) as (j1 & Hi1 & Hu & Hs & _).
    specialize (Hs Hterm).
    destruct (IH (perform h op w) j1) as (j' & Hi' & Hu' & Hs').
    + rewrite Hjobs. by apply lookup_app_l_Some.
    + unfold terminal_job in *. by rewrite Hs.
    + exists j'. split; [done|]. split; congruence.
Qed.

Lemma C8_witness :
  ∃ j', jobs (perform_all example_host (skipn 5 example_history)
                (perform_all example_host (firstn 5 example_history) example_world))
          !! 0 = Some j'
        ∧ uuid j' = Some 0%N
        ∧ status j' = Some JobStatus.DONE.
Proof.
  apply (C8_done_and_terminated_are_terminal example_host (skipn 5 example_history)
           (perform_all example_host (firstn 5 example_history) example_world) 0
           example_done_job).
  - vm_compute. reflexivity.
  - left. reflexivity.
Defined.

(** C9 (as stated, refuted): [JobStatus] has an eighth member, [UNKNOWN],
    and a job stored with it is a job whose status is none of the seven. *)
Lemma C9_counterexample :
  ∃ w' j,
    session_scope example_host
      (session_add (set_status (Some JobStatus.UNKNOWN) (built_job recipe_R1 "amd64")))
      example_world = (inr (), w')
    ∧ j ∈ jobs w'
    ∧ status j = Some JobStatus.UNKNOWN
    ∧ ¬ status_in_seven j.
Proof.
  eexists _, _. split; [vm_compute; reflexivity|].
  split; [apply list_elem_of_here|]. split; [reflexivity|].
  intros (s & Hs & Hin). injection Hs as <-.
  by apply seven_statuses_spec in Hin.
Qed.

(** C9 (amended): the status of a job is one of the eight members of
    [JobStatus], which are [UNKNOWN] (value 0) and the seven values
    [WAITING], [DEPWAIT], [SCHEDULED], [RUNNING], [DONE], [TERMINATED] and
    [STARVING] (values 1 to 7); a job stored without a status is [WAITING];
    and every operation keeps the statuses of the stored jobs among the
    seven: none produces [UNKNOWN]. *)
Theorem C9_status_values_and_closure :
  (∀ s : JobStatus.t, s ∈ JobStatus.members)
  ∧ JobStatus.members = JobStatus.UNKNOWN :: seven_statuses
  ∧ JobStatus.value <$> JobStatus.members = [0; 1; 2; 3; 4; 5; 6; 7]%Z
  ∧ (∀ h d c j, status j = None → status (inserted h d c j) = Some JobStatus.WAITING)
  ∧ (∀ h ops w,
       Forall status_in_seven (jobs w) →
       Forall status_in_seven (jobs (perform_all h ops w))).
Proof.
  split; [intros []; by apply (bool_decide_unpack _)|].
  split; [done|]. split; [done|].
  split; [by intros h d c j; unfold inserted; simpl; intros ->|].
  intros h ops. induction ops as [|op ops IH]; intros w Hw; [done|].
  rewrite perform_all_cons. apply IH.
  destruct (perform_rows h op w) as (rows & batch & -> & Hrows & Hbatch).
  apply Forall_app. split.
  - clear Hbatch. induction Hrows as [|j j' l l' (_ & _ & Hj) _ IHrows]; [constructor|].
    apply Forall_cons in Hw as [??]. constructor; auto.
  - eapply Forall_impl; [exact Hbatch|].
    intros j Hj. exists JobStatus.WAITING. split; [done|]. by apply seven_statuses_spec.
Qed.

Lemma C9_witness :
  status (inserted example_host 0 0 Job_new) = Some JobStatus.WAITING
  ∧ Forall status_in_seven (jobs (perform_all example_host example_history example_world)).
Proof.
  destruct C9_status_values_and_closure as (_ & _ & _ & Hdefault & Hclosed).
  split.
  - apply Hdefault. reflexivity.
  - apply Hclosed. simpl. constructor.
Defined.

(** ** The dispatcher *)

Lemma before_total a b : before a b = false → before b a = true.
Proof.
  unfold before, null_top_le.
  destruct (priority a), (priority b), (time_created a), (time_created b); simpl;
    repeat (case Z.leb_spec; simpl); intros; try done; lia.
Qed.

Lemma before_refl a : before a a = true.
Proof. destruct (before a a) eqn:E; [done|]. by rewrite (before_total a a E) in E. Qed.

Lemma before_trans a b c : before a b = true → before b c = true → before a c = true.
Proof.
  unfold before, null_top_le.
  destruct (priority a), (priority b), (priority c),
    (time_created a), (time_created b), (time_created c); simpl;
    repeat (case Z.leb_spec; simpl); intros; try done; lia.
Qed.

(** What [before] says of two jobs that both have a priority. *)
Lemma before_priority a b p q :
  before a b = true → priority a = Some p → priority b = Some q →
  (q ≤ p)%Z
  ∧ (q = p → ∀ t u, time_created a = Some t → time_created b = Some u → (t ≤ u)%Z).
Proof.
  unfold before. intros H Ha Hb. rewrite Ha, Hb in H. simpl in H.
  destruct (Z.leb_spec p q), (Z.leb_spec q p); simpl in H; try done; (split; [lia|]).
  all: intros ? t u Ht Hu; try lia.
  rewrite Ht, Hu in H. simpl in H. by apply Z.leb_le.
Qed.

Lemma elem_of_insert_sorted x y l : x ∈ insert_sorted y l ↔ x = y ∨ x ∈ l.
Proof.
  induction l as [|z l IH]; simpl.
  - rewrite list_elem_of_singleton, elem_of_nil. tauto.
  - destruct (before y z); rewrite !elem_of_cons; [tauto|]. rewrite IH. tauto.
Qed.

Lemma elem_of_sort_candidates x l : x ∈ sort_candidates l ↔ x ∈ l.
Proof.
  induction l as [|y l IH]; simpl; [done|].
  by rewrite elem_of_insert_sorted, elem_of_cons, IH.
Qed.

Lemma insert_sorted_head_first y l : head_first l → head_first (insert_sorted y l).
Proof.
  intros Hl c rest Heq x Hx. apply elem_of_insert_sorted in Hx.
  destruct l as [|z l]; simpl in Heq.
  - injection Heq as <- <-. destruct Hx as [->|Hx]; [apply before_refl|by inversion Hx].
  - destruct (before y z) eqn:Hyz; injection Heq as <- <-.
    + destruct Hx as [->|Hx]; [apply before_refl|].
      eapply before_trans; [exact Hyz|]. by eapply Hl.
    + destruct Hx as [->|Hx]; [by apply before_total|]. by eapply Hl.
Qed.

Lemma sort_candidates_head_first l : head_first (sort_candidates l).
Proof.
  induction l as [|y l IH]; simpl; [by intros ???|].
  by apply insert_sorted_head_first.
Qed.

Lemma elem_of_candidates w pool c :
  c ∈ candidates w pool ↔ c ∈ pool ∧ eligible w c = true.
Proof.
  unfold candidates. rewrite elem_of_sort_candidates, list_elem_of_In, filter_In.
  by rewrite list_elem_of_In.
Qed.

Lemma uuid_inj pool a b :
  NoDup (uuid <$> pool) → a ∈ pool → b ∈ pool → uuid a = uuid b → a = b.
Proof.
  intros Hnd [i Hi]%list_elem_of_lookup [k Hk]%list_elem_of_lookup Hab.
  assert (i = k) as ->; [|congruence].
  apply (NoDup_lookup (uuid <$> pool) i k (uuid a)); [done| |].
  - by rewrite list_lookup_fmap, Hi.
  - by rewrite list_lookup_fmap, Hk, Hab.
Qed.

Lemma conditional_claim_inr x wid now pool j pool' :
  conditional_claim x wid now pool = inr (j, pool') →
  ∃ r, r ∈ pool ∧ uuid r = x ∧ claimable r = true
       ∧ j = assign wid now r ∧ pool' = claimed x wid now pool.
Proof.
  unfold conditional_claim. destruct (List.filter _ pool) as [|r rs] eqn:Hf; [done|].
  intros [= <- <-]. exists r.
  assert (Hr : In r (List.filter (claim_target x) pool)) by (rewrite Hf; by left).
  apply filter_In in Hr as [Hin [Hu Hc]%andb_true_iff].
  apply bool_decide_eq_true in Hu. by rewrite list_elem_of_In.
Qed.

Lemma conditional_claim_succeeds x wid now pool c :
  c ∈ pool → uuid c = x → claimable c = true →
  ∃ j, conditional_claim x wid now pool = inr (j, claimed x wid now pool).
Proof.
  intros Hin Hu Hc. unfold conditional_claim.
  destruct (List.filter _ pool) as [|r rs] eqn:Hf; [|by eexists].
  assert (Hr : In c (List.filter (claim_target x) pool)); [|by rewrite Hf in Hr].
  apply filter_In. split; [by apply list_elem_of_In|].
  unfold claim_target. by rewrite bool_decide_eq_true_2, Hc.
Qed.

Lemma eligible_claimable w j : eligible w j = true → claimable j = true.
Proof. unfold eligible. by intros [[? _]%andb_true_iff _]%andb_true_iff. Qed.

(** A claim that returns a job returns the best candidate, assigned. *)
Lemma ClaimNext_Some w now pool j pool' :
  NoDup (uuid <$> pool) →
  ClaimNext w now pool = (Some j, pool') →
  ∃ c rest, candidates w pool = c :: rest
            ∧ j = assign (Worker.id w) now c
            ∧ pool' = claimed (uuid c) (Worker.id w) now pool.
Proof.
  intros Hnd. unfold ClaimNext.
  destruct (candidates w pool) as [|c rest] eqn:Hc; [done|]. simpl.
  assert (Hin : c ∈ candidates w pool) by (rewrite Hc; apply list_elem_of_here).
  apply elem_of_candidates in Hin as [Hin Hel].
  destruct (conditional_claim_succeeds (uuid c) (Worker.id w) now pool c)
    as [j0 Hj0]; [done|done|by eapply eligible_claimable|].
  rewrite Hj0. intros [= <- <-].
  apply conditional_claim_inr in Hj0 as (r & Hr & Hu & _ & -> & _).
  exists c, rest. by rewrite (uuid_inj pool r c Hnd Hr Hin Hu).
Qed.

(** A claim returns a job whenever one is eligible. *)
Lemma ClaimNext_eligible w now pool j :
  j ∈ pool → eligible w j = true →
  ∃ j' pool', ClaimNext w now pool = (Some j', pool').
Proof.
  intros Hin Hel. unfold ClaimNext.
  destruct (candidates w pool) as [|c rest] eqn:Hc.
  - assert (Hj : j ∈ candidates w pool) by (by apply elem_of_candidates).
    rewrite Hc in Hj. by inversion Hj.
  - simpl.
    assert (Hcin : c ∈ candidates w pool) by (rewrite Hc; apply list_elem_of_here).
    apply elem_of_candidates in Hcin as [Hcin Hcel].
    destruct (conditional_claim_succeeds (uuid c) (Worker.id w) now pool c)
      as [j0 Hj0]; [done|done|by eapply eligible_claimable|].
    rewrite Hj0. by eexists _, _.
Qed.

(** C7: capability filtering.  On a table with unique ids, [ClaimNext]
    returns only jobs whose kind the worker supports and whose architecture
    is the wildcard ['any'] or one the worker lists; so a job with a
    concrete architecture the worker does not list is never returned.  And
    a waiting job with architecture ['any'] is eligible for every worker
    that supports its kind, whatever the worker's architecture list: with
    such a job in the table the worker's claim does not come back empty. *)
Theorem C7_capability_filtering (w : Worker.t) (now : DateTime) (pool : list Job) :
  NoDup (uuid <$> pool) →
  (∀ j pool', ClaimNext w now pool = (Some j, pool') →
     (∃ k, kind j = Some k ∧ k ∈ Worker.kinds w)
     ∧ (∃ a, architecture j = Some a ∧ (a = wildcard ∨ a ∈ Worker.architectures w)))
  ∧ (∀ j a pool', architecture j = Some a → a ≠ wildcard →
       a ∉ Worker.architectures w → ClaimNext w now pool ≠ (Some j, pool'))
  ∧ (∀ j k, status j = Some JobStatus.WAITING → architecture j = Some wildcard →
       kind j = Some k → k ∈ Worker.kinds w →
       eligible w j = true
       ∧ (j ∈ pool → ∃ j' pool', ClaimNext w now pool = (Some j', pool'))).
Proof.
  intros Hnd.
  assert (Hret : ∀ j pool', ClaimNext w now pool = (Some j, pool') →
     (∃ k, kind j = Some k ∧ k ∈ Worker.kinds w)
     ∧ (∃ a, architecture j = Some a ∧ (a = wildcard ∨ a ∈ Worker.architectures w))).
  { intros j pool' Hclaim.
    apply ClaimNext_Some in Hclaim as (c & rest & Hc & -> & _); [|done].
    assert (Hin : c ∈ candidates w pool) by (rewrite Hc; apply list_elem_of_here).
    apply elem_of_candidates in Hin as [_ Hel].
    unfold eligible, kind_supported, architecture_matches in Hel.
    apply andb_true_iff in Hel as [[_ Hk]%andb_true_iff Ha]. simpl. split.
    - destruct (kind c) as [k|]; [|done]. exists k. split; [done|].
      by apply bool_decide_eq_true in Hk.
    - destruct (architecture c) as [a|]; [|done]. exists a. split; [done|].
      apply orb_true_iff in Ha as [Ha|Ha]; apply bool_decide_eq_true in Ha; auto. }
  split; [exact Hret|]. split.
  - intros j a pool' Ha Hne Hnot Hclaim.
    destruct (Hret j pool' Hclaim) as [_ (a' & Ha' & [->|Hin])]; congruence.
  - intros j k Hs Ha Hk Hin.
    assert (Hel : eligible w j = true).
    { unfold eligible, claimable, kind_supported, architecture_matches.
      rewrite Hs, Ha, Hk. simpl. by rewrite !bool_decide_eq_true_2. }
    split; [done|]. intros Hpool. by eapply ClaimNext_eligible.
Qed.

Lemma C7_witness :
  (∃ k, kind (assign 9%N 5%Z job_B) = Some k ∧ k ∈ Worker.kinds example_worker)
  ∧ (∃ a, architecture (assign 9%N 5%Z job_B) = Some a
          ∧ (a = wildcard ∨ a ∈ Worker.architectures example_worker)).
Proof.
  destruct (C7_capability_filtering example_worker 5%Z [job_A; job_B; job_C]) as [Hret _].
  - apply (bool_decide_unpack _). vm_compute. exact I.
  - eapply Hret. vm_compute. reflexivity.
Defined.

(** C6: priority ordering.  On a table with unique ids, the job a worker's
    [ClaimNext] returns is an eligible job of the table, now assigned, and
    no eligible job has a higher priority; among the eligible jobs of the
    same priority none was created earlier.  The claim is empty only if no
    job is eligible.  With A (priority 10, created at 1), B (priority 20,
    created at 2) and C (priority 10, created at 2) all eligible, three
    successive claims return B, then A, then C. *)
Theorem C6_priority_then_age (w : Worker.t) (now : DateTime) (pool : list Job) :
  NoDup (uuid <$> pool) →
  (∀ j pool', ClaimNext w now pool = (Some j, pool') →
     (∃ c, c ∈ pool ∧ eligible w c = true ∧ j = assign (Worker.id w) now c)
     ∧ ∀ j' p p', j' ∈ pool → eligible w j' = true →
         priority j = Some p → priority j' = Some p' →
         (p' ≤ p)%Z
         ∧ (p' = p → ∀ t t', time_created j = Some t → time_created j' = Some t' →
                     (t ≤ t')%Z))
  ∧ (∀ pool', ClaimNext w now pool = (None, pool') →
       pool' = pool ∧ ∀ j, j ∈ pool → eligible w j = false)
  ∧ (let '(r1, pool1) := ClaimNext example_worker 5%Z [job_A; job_B; job_C] in
     let '(r2, pool2) := ClaimNext example_worker 6%Z pool1 in
     let '(r3, pool3) := ClaimNext example_worker 7%Z pool2 in
     (r1, r2, r3) = (Some (assign 9%N 5%Z job_B), Some (assign 9%N 6%Z job_A),
                     Some (assign 9%N 7%Z job_C))
     ∧ fst (ClaimNext example_worker 8%Z pool3) = None).
Proof.
  intros Hnd. split; [|split].
  - intros j pool' Hclaim.
    apply ClaimNext_Some in Hclaim as (c & rest & Hc & -> & _); [|done].
    assert (Hin : c ∈ candidates w pool) by (rewrite Hc; apply list_elem_of_here).
    apply elem_of_candidates in Hin as [Hin Hel].
    split; [by exists c|].
    intros j' p p' Hj' Hel' Hp Hp'.
    assert (Hbefore : before c j' = true).
    { eapply (sort_candidates_head_first _ c rest Hc). by apply elem_of_candidates. }
    exact (before_priority c j' p p' Hbefore Hp Hp').
  - intros pool' Hclaim. split.
    + unfold ClaimNext in Hclaim.
      destruct (candidates w pool) as [|c rest] eqn:Hc; [by injection Hclaim|].
      assert (Hin : c ∈ candidates w pool) by (rewrite Hc; apply list_elem_of_here).
      apply elem_of_candidates in Hin as [Hin Hel].
      destruct (ClaimNext_eligible w now pool c Hin Hel) as (j' & pool'' & Hsome).
      unfold ClaimNext in Hsome. rewrite Hc in Hsome. congruence.
    + intros j Hin. destruct (eligible w j) eqn:Hel; [|done].
      destruct (ClaimNext_eligible w now pool j Hin Hel) as (j' & pool'' & Hsome).
      congruence.
  - vm_compute. by split.
Qed.

Lemma C6_witness :
  (∃ c, c ∈ [job_A; job_B; job_C] ∧ eligible example_worker c = true
        ∧ assign 9%N 5%Z job_B = assign 9%N 5%Z c)
  ∧ (10 ≤ 20)%Z.
Proof.
  destruct (C6_priority_then_age example_worker 5%Z [job_A; job_B; job_C]) as [Hbest _].
  - apply (bool_decide_unpack _). vm_compute. exact I.
  - destruct (Hbest (assign 9%N 5%Z job_B)
                (claimed (Some 2%N) 9%N 5%Z [job_A; job_B; job_C])) as [Hc Hmax].
    + vm_compute. reflexivity.
    + split; [exact Hc|].
      refine (proj1 (Hmax job_A 20%Z 10%Z _ _ _ _)).
      * apply list_elem_of_here.
      * vm_compute. reflexivity.
      * reflexivity.
      * reflexivity.
Defined.

(** ** Concurrent claims *)

Lemma claimed_uuid x wid now pool : uuid <$> claimed x wid now pool = uuid <$> pool.
Proof.
  unfold claimed. rewrite <- list_fmap_compose. apply list_fmap_ext.
  intros i r _. simpl. by destruct (claim_target x r).
Qed.

Lemma claimed_length x wid now pool : length (claimed x wid now pool) = length pool.
Proof. apply length_fmap. Qed.

Lemma scheduled_not_claimable a : status a = Some JobStatus.SCHEDULED → claimable a = false.
Proof. unfold claimable. by intros ->. Qed.

(** A claim leaves the scheduled rows alone. *)
Lemma claimed_keeps x wid now pool a :
  a ∈ pool → claimable a = false → a ∈ claimed x wid now pool.
Proof.
  intros Hin Hc. unfold claimed. apply list_elem_of_fmap. exists a. split; [|done].
  unfold claim_target. by rewrite Hc, andb_false_r.
Qed.

Lemma claimed_takes x wid now pool r :
  r ∈ pool → uuid r = x → claimable r = true → assign wid now r ∈ claimed x wid now pool.
Proof.
  intros Hin Hu Hc. unfold claimed. apply list_elem_of_fmap. exists r. split; [|done].
  unfold claim_target. by rewrite Hc, bool_decide_eq_true_2.
Qed.

Lemma step_unfold i s :
  step i s =
  match claimants s !! i with
  | None => s
  | Some c => mkSystem (snd (claimant_step c (pool s)))
                       (<[i := fst (claimant_step c (pool s))]> (claimants s))
  end.
Proof. unfold step. destruct (claimants s !! i); [|done]. by destruct (claimant_step _ _). Qed.

(** The cases of one store access. *)
Lemma claimant_step_cases c pool :
  (progress c = Polling
   ∧ claimant_step c pool
     = (mkClaimant (who c) (called_at c) (Trying (candidates (who c) pool)), pool))
  ∨ (progress c = Trying []
     ∧ claimant_step c pool = (mkClaimant (who c) (called_at c) (Returned None), pool))
  ∨ (∃ x rest, progress c = Trying (x :: rest)
       ∧ ((∃ e, conditional_claim (uuid x) (Worker.id (who c)) (called_at c) pool = inl e
                ∧ claimant_step c pool
                  = (mkClaimant (who c) (called_at c) (Trying rest), pool))
          ∨ (∃ j pool',
                conditional_claim (uuid x) (Worker.id (who c)) (called_at c) pool
                = inr (j, pool')
                ∧ claimant_step c pool
                  = (mkClaimant (who c) (called_at c) (Returned (Some j)), pool'))))
  ∨ (∃ r, progress c = Returned r ∧ claimant_step c pool = (c, pool)).
Proof.
  unfold claimant_step. destruct (progress c) as [|[|x rest]|r] eqn:Hp.
  - by left.
  - right; by left.
  - right; right; left. exists x, rest. split; [done|].
    destruct (conditional_claim _ _ _ pool) as [e|[j pool']]; [left|right]; eauto.
  - right; right; right. by exists r.
Qed.

(** A caller whose access returns nothing new holds what it held. *)
Lemma exclusive_quiet s i c c' :
  exclusive s → claimants s !! i = Some c →
  who c' = who c → (∀ a, holds c' a → holds c a) →
  exclusive (mkSystem (pool s) (<[i := c']> (claimants s))).
Proof.
  intros (Hnd & Hheld & Hexcl) Hi Hwho Hsub.
  assert (Hlt : i < length (claimants s)) by (by eapply lookup_lt_Some).
  assert (Hlook : ∀ k ck a, (<[i := c']> (claimants s)) !! k = Some ck → holds ck a →
                    ∃ ck0, claimants s !! k = Some ck0 ∧ holds ck0 a ∧ who ck = who ck0).
  { intros k ck a Hk Ha. destruct (decide (i = k)) as [<-|Hne].
    - rewrite list_lookup_insert_eq in Hk by done. injection Hk as <-.
      exists c. auto.
    - rewrite list_lookup_insert_ne in Hk by done. by exists ck. }
  split; [done|]. split; cbn [pool claimants].
  - intros k ck a Hk Ha. destruct (Hlook k ck a Hk Ha) as (ck0 & Hk0 & Ha0 & ->).
    by eapply Hheld.
  - intros k1 k2 c1 c2 a b Hk1 Hk2 Ha Hb Hab.
    destruct (Hlook k1 c1 a Hk1 Ha) as (c10 & ? & ? & _).
    destruct (Hlook k2 c2 b Hk2 Hb) as (c20 & ? & ? & _).
    by eapply Hexcl.
Qed.

Lemma exclusive_step i s : exclusive s → exclusive (step i s).
Proof.
  intros Hex. rewrite step_unfold.
  destruct (claimants s !! i) as [c|] eqn:Hi; [|done].
  destruct (claimant_step_cases c (pool s))
    as [[Hp ->]|[[Hp ->]|[(x & rest & Hp & [(e & _ & ->)|(j & pool' & Hcas & ->)])|(r & Hp & ->)]]];
    cbn [fst snd].
  - apply (exclusive_quiet s i c); [done..|]. by intros a.
  - apply (exclusive_quiet s i c); [done..|]. by intros a.
  - apply (exclusive_quiet s i c); [done..|]. by intros a.
  - destruct Hex as (Hnd & Hheld & Hexcl).
    apply conditional_claim_inr in Hcas as (r & Hr & Hu & Hc & -> & ->).
    assert (Hlt : i < length (claimants s)) by (by eapply lookup_lt_Some).
    set (wid := Worker.id (who c)). set (now := called_at c).
    assert (Hother : ∀ k ck a, k ≠ i →
              (<[i := mkClaimant (who c) now (Returned (Some (assign wid now r)))]>
                 (claimants s)) !! k = Some ck → holds ck a →
              claimants s !! k = Some ck ∧ a ∈ pool s
              ∧ status a = Some JobStatus.SCHEDULED
              ∧ worker a = Some (Worker.id (who ck))
              ∧ uuid a ≠ uuid r).
    { intros k ck a Hne Hk Ha. rewrite list_lookup_insert_ne in Hk by done.
      destruct (Hheld k ck a Hk Ha) as (Hin & Hs & Hw).
      repeat split; try done. intros Huu.
      assert (a = r) as -> by (by eapply uuid_inj).
      by rewrite (scheduled_not_claimable r Hs) in Hc. }
    split; [cbn [pool]; by rewrite claimed_uuid|]. split; cbn [pool claimants].
    + intros k ck a Hk Ha. destruct (decide (k = i)) as [->|Hne].
      * rewrite list_lookup_insert_eq in Hk by done. injection Hk as <-.
        unfold holds in Ha. simpl in Ha. injection Ha as <-.
        split; [by apply claimed_takes|done].
      * destruct (Hother k ck a Hne Hk Ha) as (_ & Hin & Hs & Hw & _).
        split; [|done]. apply claimed_keeps; [done|by apply scheduled_not_claimable].
    + intros k1 k2 c1 c2 a b Hk1 Hk2 Ha Hb Hab.
      destruct (decide (k1 = i)) as [->|Hne1], (decide (k2 = i)) as [->|Hne2]; [done|..].
      * rewrite list_lookup_insert_eq in Hk1 by done. injection Hk1 as <-.
        unfold holds in Ha. simpl in Ha. injection Ha as <-.
        destruct (Hother k2 c2 b Hne2 Hk2 Hb) as (_ & _ & _ & _ & Hd). by destruct Hd.
      * rewrite list_lookup_insert_eq in Hk2 by done. injection Hk2 as <-.
        unfold holds in Hb. simpl in Hb. injection Hb as <-.
        destruct (Hother k1 c1 a Hne1 Hk1 Ha) as (_ & _ & _ & _ & Hd). by destruct Hd.
      * destruct (Hother k1 c1 a Hne1 Hk1 Ha) as (Hk1' & _).
        destruct (Hother k2 c2 b Hne2 Hk2 Hb) as (Hk2' & _).
        by eapply Hexcl.
  - rewrite list_insert_id by done. by destruct s.
Qed.

Lemma run_schedule_cons sched i s :
  run_schedule (i :: sched) s = run_schedule sched (step i s).
Proof. reflexivity. Qed.

Lemma exclusive_run sched : ∀ s, exclusive s → exclusive (run_schedule sched s).
Proof.
  induction sched as [|i sched IH]; intros s Hs; [done|].
  rewrite run_schedule_cons. by apply IH, exclusive_step.
Qed.

Lemma exclusive_start callers pool0 :
  NoDup (uuid <$> pool0) → exclusive (start callers pool0).
Proof.
  intros Hnd.
  assert (Hnone : ∀ i c a, claimants (start callers pool0) !! i = Some c → ¬ holds c a).
  { intros i c a Hi Ha. unfold start in Hi. cbn [claimants] in Hi.
    rewrite list_lookup_fmap in Hi.
    destruct (callers !! i) as [[w now]|]; [|done]. injection Hi as <-. done. }
  split; [done|]. split.
  - intros i c a Hi Ha. by destruct (Hnone i c a Hi).
  - intros i k ci ck a b Hi _ Ha. by destruct (Hnone i ci a Hi).
Qed.

Lemma insert_sorted_length x l : length (insert_sorted x l) = S (length l).
Proof. induction l as [|y l IH]; simpl; [done|]. destruct (before x y); simpl; auto. Qed.

Lemma sort_candidates_length l : length (sort_candidates l) = length l.
Proof. induction l as [|x l IH]; simpl; [done|]. by rewrite insert_sorted_length, IH. Qed.

Lemma candidates_length w pool : length (candidates w pool) ≤ length pool.
Proof. unfold candidates. rewrite sort_candidates_length. apply filter_length_le. Qed.

Lemma claimant_step_length c pool : length (snd (claimant_step c pool)) = length pool.
Proof.
  destruct (claimant_step_cases c pool)
    as [[_ ->]|[[_ ->]|[(x & rest & _ & [(e & _ & ->)|(j & pool' & Hcas & ->)])|(r & _ & ->)]]];
    try done.
  apply conditional_claim_inr in Hcas as (r & _ & _ & _ & _ & ->).
  apply claimed_length.
Qed.

Lemma claimant_step_budget c pool :
  budget (length pool) (fst (claimant_step c pool)) ≤ budget (length pool) c - 1.
Proof.
  destruct (claimant_step_cases c pool)
    as [[Hp ->]|[[Hp ->]|[(x & rest & Hp & [(e & _ & ->)|(j & pool' & Hcas & ->)])|(r & Hp & ->)]]];
    unfold budget; cbn [progress fst]; rewrite ?Hp; cbn [length]; try lia.
  pose proof (candidates_length (who c) pool). lia.
Qed.

Lemma step_pool_length i s : length (pool (step i s)) = length (pool s).
Proof.
  rewrite step_unfold. destruct (claimants s !! i); [|done]. apply claimant_step_length.
Qed.

Lemma step_budget i s k c :
  claimants s !! k = Some c →
  ∃ c', claimants (step i s) !! k = Some c'
        ∧ budget (length (pool s)) c'
          ≤ budget (length (pool s)) c - (if Nat.eqb k i then 1 else 0).
Proof.
  intros Hk. rewrite step_unfold.
  destruct (claimants s !! i) as [ci|] eqn:Hi.
  - cbn [claimants]. destruct (Nat.eqb_spec k i) as [->|Hne].
    + rewrite list_lookup_insert_eq by (by eapply lookup_lt_Some).
      eexists. split; [done|]. assert (ci = c) as -> by congruence.
      apply claimant_step_budget.
    + rewrite list_lookup_insert_ne by done. exists c. split; [done|simpl; lia].
  - exists c. split; [done|].
    destruct (Nat.eqb_spec k i) as [->|Hne]; [congruence|simpl; lia].
Qed.

Lemma turns_cons k i sched :
  turns k (i :: sched) = (if Nat.eqb k i then 1 else 0) + turns k sched.
Proof. unfold turns. simpl. by destruct (Nat.eqb k i). Qed.

Lemma run_budget sched : ∀ s k c,
  claimants s !! k = Some c →
  ∃ c', claimants (run_schedule sched s) !! k = Some c'
        ∧ budget (length (pool s)) c' ≤ budget (length (pool s)) c - turns k sched.
Proof.
  induction sched as [|i sched IH]; intros s k c Hk.
  - exists c. split; [done|]. unfold turns. simpl. lia.
  - rewrite run_schedule_cons, turns_cons.
    destruct (step_budget i s k c Hk) as (c1 & Hk1 & Hb1).
    destruct (IH (step i s) k c1 Hk1) as (c' & Hk' & Hb').
    rewrite step_pool_length in Hb'. exists c'. split; [done|lia].
Qed.

Lemma budget_zero n c : budget n c = 0 → has_returned c = true.
Proof. unfold budget, has_returned. destruct (progress c); [lia|lia|done]. Qed.

Lemma step_claimants_length i s : length (claimants (step i s)) = length (claimants s).
Proof.
  rewrite step_unfold. destruct (claimants s !! i); [|done]. apply length_insert.
Qed.

Lemma run_claimants_length sched : ∀ s,
  length (claimants (run_schedule sched s)) = length (claimants s).
Proof.
  induction sched as [|i sched IH]; intros s; [done|].
  by rewrite run_schedule_cons, IH, step_claimants_length.
Qed.

Lemma start_lookup callers pool0 k c :
  claimants (start callers pool0) !! k = Some c ↔
  callers !! k = Some (who c, called_at c) ∧ progress c = Polling.
Proof.
  unfold start. cbn [claimants]. rewrite list_lookup_fmap.
  destruct (callers !! k) as [[w now]|]; simpl.
  - split.
    + by intros [= <-].
    + destruct c as [w' now' p]. simpl. by intros [[= -> ->] ->].
  - split; [done|]. by intros [? _].
Qed.

(** Every call returns once its caller has had enough turns. *)
Lemma all_return callers pool0 sched :
  (∀ k, k < length callers → length pool0 + 2 ≤ turns k sched) →
  Forall (λ c, has_returned c = true)
         (claimants (run_schedule sched (start callers pool0))).
Proof.
  intros Hturns. apply Forall_lookup. intros k c' Hk'.
  assert (Hlt : k < length callers).
  { apply lookup_lt_Some in Hk'. rewrite run_claimants_length in Hk'.
    unfold start in Hk'. cbn [claimants] in Hk'. by rewrite length_fmap in Hk'. }
  destruct (lookup_lt_is_Some_2 callers k Hlt) as [[w now] Hcaller].
  destruct (run_budget sched (start callers pool0) k (mkClaimant w now Polling))
    as (c'' & Hk'' & Hb).
  { by apply start_lookup. }
  assert (c'' = c') as -> by congruence.
  apply (budget_zero (length pool0)). specialize (Hturns k Hlt).
  unfold start, budget in Hb. simpl in Hb. unfold budget. lia.
Qed.

Lemma filter_nil {A} (f : A → bool) l : (∀ x, x ∈ l → f x = false) → List.filter f l = [].
Proof.
  induction l as [|x l IH]; intros H; simpl; [done|].
  rewrite (H x) by apply list_elem_of_here. apply IH. intros y Hy. apply H. by right.
Qed.

Lemma insert_lookup_cases {A} (l : list A) i x k y :
  <[i := x]> l !! k = Some y → (k = i ∧ y = x) ∨ (k ≠ i ∧ l !! k = Some y).
Proof.
  intros H. destruct (decide (k = i)) as [->|Hne].
  - left. split; [done|].
    assert (Hlt : i < length l).
    { apply lookup_lt_Some in H. by rewrite length_insert in H. }
    rewrite list_lookup_insert_eq in H by done. congruence.
  - right. split; [done|]. by rewrite list_lookup_insert_ne in H by done.
Qed.

Section SingleJob.
Variables (callers : list (Worker.t * DateTime)) (pool0 : list Job) (j : Job).
Hypothesis unique_ids : NoDup (uuid <$> pool0).
Hypothesis only_j : only_eligible callers pool0 j.

Lemma only_candidate w now : (w, now) ∈ callers → candidates w pool0 = [j].
Proof. intros Hin. unfold candidates. by rewrite (only_j w now Hin). Qed.

Lemma only_eligible_elem w now :
  (w, now) ∈ callers → j ∈ pool0 ∧ claimable j = true.
Proof.
  intros Hin.
  assert (Hj : In j (List.filter (eligible w) pool0))
    by (rewrite (only_j w now Hin); by left).
  apply filter_In in Hj as [Hj Hel]. split; [by apply list_elem_of_In|].
  by eapply eligible_claimable.
Qed.

(** The first conditional update on [j] wins it. *)
Lemma first_claim_wins w now wid t :
  (w, now) ∈ callers →
  conditional_claim (uuid j) wid t pool0
  = inr (assign wid t j, claimed (uuid j) wid t pool0).
Proof.
  intros Hin. destruct (only_eligible_elem w now Hin) as [Hj Hc].
  destruct (conditional_claim_succeeds (uuid j) wid t pool0 j Hj eq_refl Hc) as [j0 H0].
  rewrite H0. apply conditional_claim_inr in H0 as (r & Hr & Hu & _ & -> & _).
  by rewrite (uuid_inj pool0 r j unique_ids Hr Hj Hu).
Qed.

(** Once [j] is claimed, no caller finds a candidate. *)
Lemma no_candidate_after w now wid t :
  (w, now) ∈ callers → candidates w (claimed (uuid j) wid t pool0) = [].
Proof.
  intros Hin. destruct (only_eligible_elem w now Hin) as [Hj Hc].
  unfold candidates. rewrite filter_nil; [done|].
  intros r' (r & -> & Hr)%list_elem_of_fmap.
  destruct (claim_target (uuid j) r) eqn:Ht.
  - unfold eligible, claimable. simpl. done.
  - destruct (eligible w r) eqn:Hel; [|done].
    assert (Hin' : In r (List.filter (eligible w) pool0)).
    { apply filter_In. split; [by apply list_elem_of_In|done]. }
    rewrite (only_j w now Hin) in Hin'. destruct Hin' as [<-|[]].
    unfold claim_target in Ht. by rewrite bool_decide_eq_true_2, Hc in Ht.
Qed.

(** Once [j] is claimed, every later conditional update on it fails. *)
Lemma later_claim_fails wid t wid' t' :
  conditional_claim (uuid j) wid' t' (claimed (uuid j) wid t pool0) = inl ConflictError.
Proof.
  unfold conditional_claim. rewrite filter_nil; [done|].
  intros r' (r & -> & Hr)%list_elem_of_fmap.
  destruct (claim_target (uuid j) r) eqn:Ht; [|done].
  unfold claim_target, claimable. simpl. apply andb_false_r.
Qed.

Lemma race_start : race callers pool0 j (start callers pool0).
Proof.
  split.
  - intros k c Hk. by apply start_lookup in Hk as [? _].
  - left. split; [done|]. intros k c Hk. apply start_lookup in Hk as [_ ->]. by left.
Qed.

Lemma race_step i s : race callers pool0 j s → race callers pool0 j (step i s).
Proof.
  intros [Hwho Hrace]. rewrite step_unfold.
  destruct (claimants s !! i) as [c|] eqn:Hi; [|by split].
  pose proof (Hwho i c Hi) as Hcaller.
  assert (Hin : (who c, called_at c) ∈ callers) by (by eapply list_elem_of_lookup_2).
  assert (Hwho' : ∀ c', who c' = who c → called_at c' = called_at c →
            ∀ k ck, <[i := c']> (claimants s) !! k = Some ck →
                    callers !! k = Some (who ck, called_at ck)).
  { intros c' Hw Ht k ck [[-> ->]|[_ Hk]]%insert_lookup_cases; [|by apply Hwho].
    by rewrite Hw, Ht. }
  destruct Hrace as [[Hpool Hwait]|(i0 & w & now & Hi0 & Hpool & Hwin & Hlose)].
  - (* nobody has the job yet *)
    destruct (Hwait i c Hi) as [Hp|Hp].
    + unfold claimant_step. rewrite Hp, Hpool. cbn [fst snd].
      split; [by apply Hwho'|]. left. split; [done|]. cbn [claimants].
      intros k ck [[-> ->]|[_ Hk]]%insert_lookup_cases; [|by eapply Hwait].
      right. simpl. by rewrite (only_candidate _ _ Hin).
    + unfold claimant_step. rewrite Hp, Hpool.
      rewrite (first_claim_wins _ _ _ _ Hin). cbn [fst snd].
      split; [by apply Hwho'|]. right.
      exists i, (who c), (called_at c). split; [done|]. split; [done|]. cbn [claimants].
      split; [by rewrite list_lookup_insert_eq by (by eapply lookup_lt_Some)|].
      intros k ck Hne Hk. rewrite list_lookup_insert_ne in Hk by done.
      destruct (Hwait k ck Hk) as [->| ->]; [by left|right; by left].
  - (* caller [i0] has the job *)
    destruct (decide (i = i0)) as [->|Hne].
    + assert (c = mkClaimant w now (Returned (Some (assign (Worker.id w) now j))))
        as -> by congruence.
      unfold claimant_step. cbn [progress fst snd].
      rewrite list_insert_id by done. split; [done|]. right. by exists i0, w, now.
    + assert (Hkeep : ∀ c', loses j (progress c') →
                ∀ k ck, k ≠ i0 → <[i := c']> (claimants s) !! k = Some ck →
                        loses j (progress ck)).
      { intros c' Hc' k ck Hk0 [[-> ->]|[_ Hk]]%insert_lookup_cases; [done|].
        by eapply Hlose. }
      assert (Hwin' : ∀ c', <[i := c']> (claimants s) !! i0
                = Some (mkClaimant w now (Returned (Some (assign (Worker.id w) now j)))))
        by (intros c'; by rewrite list_lookup_insert_ne by done).
      destruct (Hlose i c Hne Hi) as [Hp|[Hp|[Hp|Hp]]];
        unfold claimant_step; rewrite Hp, ?Hpool, ?later_claim_fails,
          ?(no_candidate_after _ _ _ _ Hin); cbn [fst snd];
        (split; [by apply Hwho'|]; right; exists i0, w, now;
             split; [done|]; split; [done|]; cbn [claimants]; split; [done|];
             apply Hkeep; simpl; unfold loses; auto).
Qed.

Lemma race_run sched : ∀ s,
  race callers pool0 j s → race callers pool0 j (run_schedule sched s).
Proof.
  induction sched as [|i sched IH]; intros s Hs; [done|].
  rewrite run_schedule_cons. by apply IH, race_step.
Qed.
End SingleJob.

(** A caller left alone gets the answer of [ClaimNext]. *)
Lemma solo_trying w now cands : ∀ m rows,
  length cands + 1 ≤ m →
  run_schedule (replicate m 0) (mkSystem rows [mkClaimant w now (Trying cands)])
  = mkSystem (snd (claim_first w now cands rows))
             [mkClaimant w now (Returned (fst (claim_first w now cands rows)))].
Proof.
  assert (Hdone : ∀ m rows r,
            run_schedule (replicate m 0) (mkSystem rows [mkClaimant w now (Returned r)])
            = mkSystem rows [mkClaimant w now (Returned r)]).
  { induction m as [|m IH]; intros rows r; [done|]. simpl. apply IH. }
  induction cands as [|c cands IH]; intros m rows Hm.
  - destruct m as [|m]; [simpl in Hm; lia|]. simpl. apply Hdone.
  - destruct m as [|m]; [simpl in Hm; lia|]. simpl in Hm.
    cbn [replicate]. rewrite run_schedule_cons.
    unfold step. cbn [claimants pool lookup list_lookup]. unfold claimant_step.
    cbn [progress who called_at claim_first].
    destruct (conditional_claim (uuid c) (Worker.id w) now rows) as [e|[j pool']].
    + cbn [list_insert insert]. apply IH. lia.
    + cbn [list_insert insert fst snd]. apply Hdone.
Qed.

Lemma solo_call w now rows :
  run_schedule (replicate (length rows + 2) 0) (start [(w, now)] rows)
  = mkSystem (snd (ClaimNext w now rows))
             [mkClaimant w now (Returned (fst (ClaimNext w now rows)))].
Proof.
  replace (length rows + 2) with (S (length rows + 1)) by lia.
  cbn [replicate]. rewrite run_schedule_cons.
  unfold start, step. cbn [fmap list_fmap claimants pool lookup list_lookup].
  unfold claimant_step. cbn [progress who called_at list_insert insert].
  apply (solo_trying w now (candidates w rows) (length rows + 1) rows).
  pose proof (candidates_length w rows). lia.
Qed.

(** C1: exclusive claim.  Any number of callers run [ClaimNext] against one
    store whose job ids are unique, their store accesses interleaved in any
    order.  (1) At every instant no two callers hold a job of the same id,
    and a job a caller holds is in the store with status [SCHEDULED] and
    the caller as worker.  (2) Every call returns once its caller has been
    scheduled often enough.  (3) When two or more callers have one and the
    same job [j] as their only eligible job, then, as soon as all calls have
    returned, exactly one caller has received [j], scheduled and assigned to
    it, the store shows it, and every other caller has received Empty. *)
Theorem C1_exclusive_claim (callers : list (Worker.t * DateTime)) (pool0 : list Job) :
  NoDup (uuid <$> pool0) →
  (∀ sched, exclusive (run_schedule sched (start callers pool0)))
  ∧ (∀ sched,
       (∀ k, k < length callers → length pool0 + 2 ≤ turns k sched) →
       Forall (λ c, has_returned c = true)
              (claimants (run_schedule sched (start callers pool0))))
  ∧ (∀ j sched,
       2 ≤ length callers →
       only_eligible callers pool0 j →
       Forall (λ c, has_returned c = true)
              (claimants (run_schedule sched (start callers pool0))) →
       ∃ i w now,
         callers !! i = Some (w, now)
         ∧ claimants (run_schedule sched (start callers pool0)) !! i
           = Some (mkClaimant w now (Returned (Some (assign (Worker.id w) now j))))
         ∧ status (assign (Worker.id w) now j) = Some JobStatus.SCHEDULED
         ∧ worker (assign (Worker.id w) now j) = Some (Worker.id w)
         ∧ assign (Worker.id w) now j ∈ pool (run_schedule sched (start callers pool0))
         ∧ ∀ k c, k ≠ i →
             claimants (run_schedule sched (start callers pool0)) !! k = Some c →
             progress c = Returned None).
Proof.
  intros Hnd. split; [|split].
  - intros sched. by apply exclusive_run, exclusive_start.
  - intros sched. apply all_return.
  - intros j sched Hn Honly Hall.
    pose proof (race_run callers pool0 j Hnd Honly sched _
                  (race_start callers pool0 j)) as [Hwho Hrace].
    set (final := run_schedule sched (start callers pool0)) in *.
    assert (Hreturned : ∀ k c, claimants final !! k = Some c → has_returned c = true).
    { intros k c Hk. by eapply (proj1 (Forall_lookup _ _) Hall). }
    destruct Hrace as [[_ Hwait]|(i & w & now & Hi & Hpool & Hwin & Hlose)].
    + exfalso.
      assert (Hlen : 0 < length (claimants final)).
      { unfold final. rewrite run_claimants_length. unfold start. cbn [claimants].
        rewrite length_fmap. lia. }
      destruct (lookup_lt_is_Some_2 _ _ Hlen) as [c Hc].
      pose proof (Hreturned 0 c Hc) as Hr. unfold has_returned in Hr.
      by destruct (Hwait 0 c Hc) as [Hp|Hp]; rewrite Hp in Hr.
    + exists i, w, now. split; [done|]. split; [done|]. split; [done|]. split; [done|].
      assert (Hin : (w, now) ∈ callers) by (by eapply list_elem_of_lookup_2).
      destruct (only_eligible_elem callers pool0 j Honly w now Hin) as [Hj Hc].
      split; [rewrite Hpool; by apply claimed_takes|].
      intros k c Hne Hk. pose proof (Hreturned k c Hk) as Hr. unfold has_returned in Hr.
      by destruct (Hlose k c Hne Hk) as [Hp|[Hp|[Hp|Hp]]]; rewrite Hp in Hr.
Qed.

Lemma C1_witness :
  ∃ i w now,
    example_callers !! i = Some (w, now)
    ∧ claimants (run_schedule [1; 0; 1; 0; 0; 1] (start example_callers [job_A])) !! i
      = Some (mkClaimant w now (Returned (Some (assign (Worker.id w) now job_A))))
    ∧ status (assign (Worker.id w) now job_A) = Some JobStatus.SCHEDULED
    ∧ worker (assign (Worker.id w) now job_A) = Some (Worker.id w)
    ∧ assign (Worker.id w) now job_A
      ∈ pool (run_schedule [1; 0; 1; 0; 0; 1] (start example_callers [job_A]))
    ∧ ∀ k c, k ≠ i →
        claimants (run_schedule [1; 0; 1; 0; 0; 1] (start example_callers [job_A])) !! k
        = Some c →
        progress c = Returned None.
Proof.
  destruct (C1_exclusive_claim example_callers [job_A]) as (_ & Hreturn & Hone).
  - apply (bool_decide_unpack _). vm_compute. exact I.
  - apply (Hone job_A [1; 0; 1; 0; 0; 1]).
    + simpl. lia.
    + intros w now Hin. apply list_elem_of_In in Hin. simpl in Hin.
      destruct Hin as [[= <- <-]|[[= <- <-]|[]]]; reflexivity.
    + apply Hreturn. intros k Hk. simpl in Hk.
      destruct k as [|[|k]]; [vm_compute; lia|vm_compute; lia|lia].
Defined.

(** * Further properties of the code *)

(** ** laniakea/db/jobs.py: the predicates of [Job] *)

(** X1: a failed job has a result: whenever [is_failed] holds, [has_result]
    holds, and the result is one of the three failure values. *)
Theorem is_failed_has_result (j : Job) :
  is_failed j = true →
  has_result j = true
  ∧ (result j = Some JobResult.FAILURE
     ∨ result j = Some JobResult.FAILURE_PENDING
     ∨ result j = Some JobResult.FAILURE_DEPENDENCY).
Proof.
  unfold is_failed, has_result. intros H.
  apply orb_true_iff in H as [H|H]; [apply orb_true_iff in H as [H|H]|];
    apply bool_decide_eq_true in H; rewrite H; split; auto.
Qed.

Lemma is_failed_has_result_witness :
  has_result (set_result (Some JobResult.FAILURE_PENDING) Job_new) = true
  ∧ (result (set_result (Some JobResult.FAILURE_PENDING) Job_new) = Some JobResult.FAILURE
     ∨ result (set_result (Some JobResult.FAILURE_PENDING) Job_new)
       = Some JobResult.FAILURE_PENDING
     ∨ result (set_result (Some JobResult.FAILURE_PENDING) Job_new)
       = Some JobResult.FAILURE_DEPENDENCY).
Proof.
  apply (is_failed_has_result (set_result (Some JobResult.FAILURE_PENDING) Job_new)).
  reflexivity.
Defined.

(** X2: [has_result] compares with [JobResult.UNKNOWN] only, so a job whose
    result attribute was never set counts as having a result until the row
    is inserted: the insert fills in [UNKNOWN], and from then on
    [has_result] is false.  Such a job is never failed. *)
Theorem has_result_of_unset_result (h : Host) (d c : nat) (j : Job) :
  result j = None →
  has_result j = true
  ∧ has_result (inserted h d c j) = false
  ∧ is_failed j = false
  ∧ is_failed (inserted h d c j) = false.
Proof.
  intros H. unfold has_result, is_failed, inserted. simpl. rewrite H. by repeat split.
Qed.

Lemma has_result_of_unset_result_witness :
  has_result Job_new = true
  ∧ has_result (inserted example_host 0 0 Job_new) = false
  ∧ is_failed Job_new = false
  ∧ is_failed (inserted example_host 0 0 Job_new) = false.
Proof. apply (has_result_of_unset_result example_host 0 0 Job_new). reflexivity. Defined.

(** X3: the text [JobResult.__str__] prints identifies the result: two
    results that print alike are the same; and a job with a result is failed
    exactly when that text starts with "failure". *)
Theorem JobResult_str_identifies :
  (∀ r1 r2, JobResult.__str__ r1 = JobResult.__str__ r2 → r1 = r2)
  ∧ (∀ j r, result j = Some r →
       (is_failed j = true ↔ String.prefix "failure" (JobResult.__str__ r) = true)).
Proof.
  split.
  - intros [] []; vm_compute; intros H; try reflexivity; discriminate H.
  - intros j r Hr. unfold is_failed. rewrite Hr. by destruct r; vm_compute.
Qed.

Lemma JobResult_str_identifies_witness :
  is_failed (set_result (Some JobResult.FAILURE_DEPENDENCY) Job_new) = true
  ↔ String.prefix "failure" (JobResult.__str__ JobResult.FAILURE_DEPENDENCY) = true.
Proof.
  apply (proj2 JobResult_str_identifies
           (set_result (Some JobResult.FAILURE_DEPENDENCY) Job_new)).
  reflexivity.
Defined.

(** What a flush costs: one call of [uuid4] for every queued job without an
    id, one reading of the clock for every queued job without a creation
    time, and one row per job. *)
Lemma flush_counters h new : ∀ d c rows d' c',
  flush h d c new = (rows, d', c') →
  d' = d + length (filter (λ j, uuid j = None) new)
  ∧ c' = c + length (filter (λ j, time_created j = None) new)
  ∧ length rows = length new.
Proof.
  induction new as [|j new IH]; intros d c rows d' c'; cbn [flush].
  - intros [= <- <- <-]. cbn. lia.
  - destruct (insert_defaults h d c j) as [[row d1] c1] eqn:E.
    destruct (flush h d1 c1 new) as [[rows' d2] c2] eqn:F.
    intros [= <- <- <-]. destruct (IH _ _ _ _ _ F) as (-> & -> & Hlen).
    unfold insert_defaults in E. injection E as _ <- <-.
    rewrite !filter_cons.
    destruct (uuid j), (time_created j); cbn; rewrite ?Hlen;
      repeat (destruct (decide _) as [?|?]; try done); cbn; lia.
Qed.

(** X4: the column defaults only fill holes.  Inserting never changes an
    attribute that was set, leaves the columns without default alone, and
    draws an id or reads the clock only for a job that lacks one: for a job
    with an id no id is drawn, for a job without one exactly one is drawn
    and becomes its id, and likewise for the creation time and the clock; so
    a flush draws as many ids as it has jobs without id, and reads the clock
    as often as it has jobs without creation time.  A row that went through
    the defaults once is unchanged by them and costs no further draw. *)
Theorem insert_defaults_fill_holes_only (h : Host) (d c : nat) (j : Job) :
  (∀ u, uuid j = Some u → uuid (inserted h d c j) = Some u)
  ∧ (∀ s, status j = Some s → status (inserted h d c j) = Some s)
  ∧ (∀ a, architecture j = Some a → architecture (inserted h d c j) = Some a)
  ∧ (∀ t, time_created j = Some t → time_created (inserted h d c j) = Some t)
  ∧ (∀ r, result j = Some r → result (inserted h d c j) = Some r)
  ∧ (module (inserted h d c j) = module j ∧ kind (inserted h d c j) = kind j
     ∧ trigger (inserted h d c j) = trigger j ∧ version (inserted h d c j) = version j
     ∧ time_assigned (inserted h d c j) = time_assigned j
     ∧ time_finished (inserted h d c j) = time_finished j
     ∧ priority (inserted h d c j) = priority j ∧ worker (inserted h d c j) = worker j
     ∧ data (inserted h d c j) = data j
     ∧ latest_log_excerpt (inserted h d c j) = latest_log_excerpt j)
  ∧ (∀ d' c', insert_defaults h d' c' (inserted h d c j) = (inserted h d c j, d', c'))
  ∧ (∀ row d' c', insert_defaults h d c j = (row, d', c') →
       row = inserted h d c j
       ∧ (is_Some (uuid j) → d' = d)
       ∧ (uuid j = None → d' = S d ∧ uuid row = Some (uuid4 h d))
       ∧ (is_Some (time_created j) → c' = c)
       ∧ (time_created j = None → c' = S c ∧ time_created row = Some (utcnow h c)))
  ∧ (∀ new rows d' c', flush h d c new = (rows, d', c') →
       d' = d + length (filter (λ j, uuid j = None) new)
       ∧ c' = c + length (filter (λ j, time_created j = None) new)
       ∧ length rows = length new).
Proof.
  split; [unfold inserted; cbn; by intros u ->|].
  split; [unfold inserted; cbn; by intros s ->|].
  split; [unfold inserted; cbn; by intros a ->|].
  split; [unfold inserted; cbn; by intros t ->|].
  split; [unfold inserted; cbn; by intros r ->|].
  split; [unfold inserted; cbn; by repeat split|].
  split; [intros d' c'; unfold inserted, insert_defaults; cbn; reflexivity|].
  split; [|intros new rows d' c'; apply flush_counters].
  intros row d' c' E. unfold inserted. rewrite E. cbn [fst].
  unfold insert_defaults in E. injection E as <- <- <-.
  split; [done|]. split; [by intros [u ->]|]. split; [by intros ->|].
  split; [by intros [t ->]|by intros ->].
Qed.

Lemma insert_defaults_fill_holes_only_witness :
  status (inserted example_host 0 0 (set_status (Some JobStatus.DEPWAIT) Job_new))
  = Some JobStatus.DEPWAIT
  ∧ ∀ row d' c',
      insert_defaults example_host 5 7 (set_uuid (Some 42%N) Job_new) = (row, d', c') →
      row = inserted example_host 5 7 (set_uuid (Some 42%N) Job_new)
      ∧ (is_Some (uuid (set_uuid (Some 42%N) Job_new)) → d' = 5)
      ∧ (uuid (set_uuid (Some 42%N) Job_new) = None →
         d' = 6 ∧ uuid row = Some (uuid4 example_host 5))
      ∧ (is_Some (time_created (set_uuid (Some 42%N) Job_new)) → c' = 7)
      ∧ (time_created (set_uuid (Some 42%N) Job_new) = None →
         c' = 8 ∧ time_created row = Some (utcnow example_host 7)).
Proof.
  split.
  - apply (insert_defaults_fill_holes_only example_host 0 0
             (set_status (Some JobStatus.DEPWAIT) Job_new)).
    reflexivity.
  - apply (insert_defaults_fill_holes_only example_host 5 7 (set_uuid (Some 42%N) Job_new)).
Defined.

(** ** admin/lkadmin/isotope.py: how [trigger_image_build] ends *)

(** X5: an unknown recipe name.  When no stored recipe has the name,
    [trigger_image_build] prints the note that the recipe was not found and
    exits with status 2; no job is stored, no id is drawn, the clock is not
    read, and the recipes are as before. *)
Theorem trigger_unknown_recipe_exits_2 (h : Host) (n : string) (w : World) :
  filter (λ r, ImageBuildRecipe.name r = n) (recipes w) = [] →
  fuse w = None →
  trigger_image_build h n w
  = (inl (SystemExit 2),
     mkWorld (jobs w) (recipes w) [] (uuid_draws w) (clock_reads w) None
             (stdout w ++ [NoteRecipeNotFound n])).
Proof.
  intros Hq Hf. rewrite trigger_image_build_run. cbv zeta. rewrite Hq, Hf. simpl.
  by destruct w.
Qed.

Lemma trigger_unknown_recipe_exits_2_witness :
  trigger_image_build example_host "R9" example_world
  = (inl (SystemExit 2),
     mkWorld [] [recipe_R1; recipe_R0] [] 0 0 None [NoteRecipeNotFound "R9"]).
Proof.
  apply (trigger_unknown_recipe_exits_2 example_host "R9" example_world); reflexivity.
Defined.

(** X6: an ambiguous recipe name.  When two or more stored recipes have the
    name, the lookup raises [MultipleResultsFound]: nothing is printed, no
    job is stored and no id is drawn. *)
Theorem trigger_ambiguous_recipe_fails (h : Host) (n : string) (w : World)
    (r1 r2 : ImageBuildRecipe.t) (rs : list ImageBuildRecipe.t) :
  filter (λ r, ImageBuildRecipe.name r = n) (recipes w) = r1 :: r2 :: rs →
  fuse w = None →
  trigger_image_build h n w
  = (inl MultipleResultsFound,
     mkWorld (jobs w) (recipes w) [] (uuid_draws w) (clock_reads w) None (stdout w)).
Proof.
  intros Hq Hf. rewrite trigger_image_build_run. cbv zeta. rewrite Hq, Hf. simpl.
  by destruct w.
Qed.

Lemma trigger_ambiguous_recipe_fails_witness :
  trigger_image_build example_host "R1"
    (mkWorld [] [recipe_R1; recipe_R0; recipe_R1] [] 0 0 None [])
  = (inl MultipleResultsFound,
     mkWorld [] [recipe_R1; recipe_R0; recipe_R1] [] 0 0 None []).
Proof.
  apply (trigger_ambiguous_recipe_fails example_host "R1"
           (mkWorld [] [recipe_R1; recipe_R0; recipe_R1] [] 0 0 None [])
           recipe_R1 recipe_R1 []); reflexivity.
Defined.

Lemma constraints_fresh h r w :
  NoDup (uuid <$> jobs w) →
  constraints_ok (jobs w)
    (stored_batch h r (uuid_draws w) (clock_reads w) (ImageBuildRecipe.architectures r)) →
  fresh_uuids h w (length (ImageBuildRecipe.architectures r)).
Proof.
  intros Hnd (_ & Hnew & Hdisj). unfold fresh_uuids, next_uuids.
  rewrite stored_batch_uuid in Hnew. apply NoDup_app. split; [done|]. split; [|done].
  intros u Hu Hin.
  rewrite <- (stored_batch_uuid h r _ _ (clock_reads w)) in Hin.
  apply list_elem_of_fmap in Hin as (j & -> & Hj).
  by apply (proj1 (Forall_forall _ _) Hdisj j Hj).
Qed.

(** X7: an id collision.  When the ids drawn for the batch are not all new
    (one of them is the id of a stored job, or two of them coincide), the
    commit violates the primary key of table [jobs]: the run ends with
    [IntegrityError], no job of the batch is stored and nothing is reported
    as scheduled; the ids drawn are used up. *)
Theorem trigger_id_collision_stores_nothing
    (h : Host) (n : string) (r : ImageBuildRecipe.t) (w : World) :
  recipe_named n w r →
  fuse w = None →
  NoDup (uuid <$> jobs w) →
  ¬ fresh_uuids h w (length (ImageBuildRecipe.architectures r)) →
  trigger_image_build h n w
  = (inl IntegrityError,
     mkWorld (jobs w) (recipes w) []
             (uuid_draws w + length (ImageBuildRecipe.architectures r))
             (clock_reads w + length (ImageBuildRecipe.architectures r))
             None (stdout w)).
Proof.
  intros Hr Hf Hnd Hbad. rewrite trigger_image_build_run. cbv zeta.
  rewrite Hr, Hf. cbn [survives burn fmap option_fmap option_map].
  rewrite decide_False; [done|].
  intros Hok. apply Hbad. by apply constraints_fresh.
Qed.

Lemma trigger_id_collision_stores_nothing_witness :
  trigger_image_build example_host "R1" example_collision_world
  = (inl IntegrityError,
     mkWorld [waiting_job 1%N 0%Z 0%Z] [recipe_R1] [] 2 2 None []).
Proof.
  apply (trigger_id_collision_stores_nothing example_host "R1" recipe_R1
           example_collision_world).
  - reflexivity.
  - reflexivity.
  - apply (bool_decide_unpack _). vm_compute. exact I.
  - intros Hfresh. apply (bool_decide_pack _) in Hfresh. vm_compute in Hfresh.
    exact Hfresh.
Defined.

(** X8: a retry is clean.  When a run fails at a session operation up to and
    including its commit, a second run of the same command, undisturbed,
    returns normally and stores exactly one job per architecture: the
    failed attempt leaves nothing behind that the retry would duplicate. *)
Theorem trigger_retry_after_failure
    (h : Host) (n : string) (r : ImageBuildRecipe.t) (w : World) (m : nat) :
  recipe_named n w r →
  fuse w = Some m →
  m ≤ S (length (ImageBuildRecipe.architectures r)) →
  fresh_uuids h w (length (ImageBuildRecipe.architectures r)) →
  ∃ w1 w2 batch,
    trigger_image_build h n w = (inl SimulatedFailure, w1)
    ∧ jobs w1 = jobs w
    ∧ trigger_image_build h n w1 = (inr (), w2)
    ∧ jobs w2 = jobs w ++ batch
    ∧ length batch = length (ImageBuildRecipe.architectures r)
    ∧ architecture <$> batch = Some <$> ImageBuildRecipe.architectures r
    ∧ Forall (created_as r) batch.
Proof.
  intros Hr Hf Hm Hfresh.
  set (w1 := mkWorld (jobs w) (recipes w) [] (uuid_draws w) (clock_reads w) None (stdout w)).
  assert (H1 : trigger_image_build h n w = (inl SimulatedFailure, w1)).
  { rewrite trigger_image_build_run. cbv zeta. rewrite Hr, Hf.
    unfold survives. destruct (Nat.leb_spec 1 m) as [H1|H1].
    - destruct (Nat.leb_spec (length (ImageBuildRecipe.architectures r) + 2) m); [lia|].
      by destruct w.
    - by destruct w. }
  eexists w1, _, _. split; [exact H1|]. split; [done|]. split.
  { apply (trigger_image_build_ok h n r w1); [exact Hr|done|].
    by apply (fresh_constraints h r w1). }
  cbn [jobs]. split; [done|].
  split; [apply stored_batch_length|].
  split; [apply stored_batch_architecture|apply stored_batch_created].
Qed.

Lemma trigger_retry_after_failure_witness :
  ∃ w1 w2 batch,
    trigger_image_build example_host "R1" (set_fuse (Some 2) example_world)
    = (inl SimulatedFailure, w1)
    ∧ jobs w1 = []
    ∧ trigger_image_build example_host "R1" w1 = (inr (), w2)
    ∧ jobs w2 = batch
    ∧ length batch = 2
    ∧ architecture <$> batch = [Some "amd64"; Some "arm64"]
    ∧ Forall (created_as recipe_R1) batch.
Proof.
  apply (trigger_retry_after_failure example_host "R1" recipe_R1
           (set_fuse (Some 2) example_world) 2).
  - reflexivity.
  - reflexivity.
  - simpl. lia.
  - apply (bool_decide_unpack _). vm_compute. exact I.
Defined.


(** The jobs a run adds: none, or the whole batch of the recipe. *)
Lemma added_jobs_cases h n w :
  (added_jobs h n w = [] ∧ jobs (snd (trigger_image_build h n w)) = jobs w)
  ∨ (∃ r, recipe_named n w r
          ∧ added_jobs h n w
            = stored_batch h r (uuid_draws w) (clock_reads w)
                (ImageBuildRecipe.architectures r)
          ∧ jobs (snd (trigger_image_build h n w)) = jobs w ++ added_jobs h n w).
Proof.
  unfold added_jobs. rewrite trigger_image_build_run. cbv zeta.
  assert (Hnil : drop (length (jobs w)) (jobs w) = []) by apply drop_all.
  destruct (survives 1 (fuse w)); [|left; by world_simpl].
  destruct (filter _ (recipes w)) as [|r [|r' rs]] eqn:Q;
    [left; by world_simpl| |left; by world_simpl].
  destruct (survives _ (fuse w)); [|left; by world_simpl].
  destruct (decide (constraints_ok _ _)); [|left; by cbn [snd jobs]].
  right. exists r. cbn [snd jobs]. rewrite drop_app_length. by repeat split.
Qed.

(** X9: the report matches the store.  A run of [trigger_image_build] ends
    in one of three ways: it reports [k] scheduled jobs for the recipe and
    has stored exactly [k] new jobs; or it notes that the recipe was not
    found, exits with status 2 and has stored nothing; or it prints nothing
    and has stored nothing.  So it never reports jobs it did not store and
    never stores jobs it does not report; a normal return is always the
    first way. *)
Theorem trigger_report_matches_store (h : Host) (n : string) (w : World) :
  ((∃ k batch,
      stdout (snd (trigger_image_build h n w)) = stdout w ++ [DoneScheduled k n]
      ∧ jobs (snd (trigger_image_build h n w)) = jobs w ++ batch
      ∧ length batch = k)
   ∨ (stdout (snd (trigger_image_build h n w)) = stdout w ++ [NoteRecipeNotFound n]
      ∧ jobs (snd (trigger_image_build h n w)) = jobs w
      ∧ fst (trigger_image_build h n w) = inl (SystemExit 2))
   ∨ (stdout (snd (trigger_image_build h n w)) = stdout w
      ∧ jobs (snd (trigger_image_build h n w)) = jobs w
      ∧ ∃ e, fst (trigger_image_build h n w) = inl e ∧ e ≠ SystemExit 2))
  ∧ (fst (trigger_image_build h n w) = inr () →
     ∃ k batch,
       stdout (snd (trigger_image_build h n w)) = stdout w ++ [DoneScheduled k n]
       ∧ jobs (snd (trigger_image_build h n w)) = jobs w ++ batch
       ∧ length batch = k).
Proof.
  rewrite trigger_image_build_run. cbv zeta.
  destruct (survives 1 (fuse w)).
  2:{ world_simpl. split; [|done]. right; right. repeat split; eauto. }
  destruct (filter _ (recipes w)) as [|r [|r' rs]] eqn:Q.
  - world_simpl. split; [|done]. right; left. by repeat split.
  - destruct (survives _ (fuse w)).
    2:{ world_simpl. split; [|done]. right; right. repeat split; eauto. }
    destruct (decide (constraints_ok _ _)).
    2:{ cbn [fst snd jobs stdout]. split; [|done]. right; right. repeat split; eauto. }
    cbn [fst snd jobs stdout].
    assert (Hn : ImageBuildRecipe.name r = n) by (by apply (recipe_named_name n w r)).
    rewrite Hn.
    assert (Hdone : ∃ k batch,
      stdout w ++ [DoneScheduled (length (ImageBuildRecipe.architectures r)) n]
      = stdout w ++ [DoneScheduled k n]
      ∧ jobs w ++ stored_batch h r (uuid_draws w) (clock_reads w)
                    (ImageBuildRecipe.architectures r) = jobs w ++ batch
      ∧ length batch = k).
    { eexists _, _. split; [done|]. split; [done|]. apply stored_batch_length. }
    split; [by left|by intros _].
  - world_simpl. split; [|done]. right; right. repeat split; eauto.
Qed.

Lemma trigger_report_matches_store_witness :
  ∃ k batch,
    stdout (snd (trigger_image_build example_host "R1" example_world))
    = stdout example_world ++ [DoneScheduled k "R1"]
    ∧ jobs (snd (trigger_image_build example_host "R1" example_world))
      = jobs example_world ++ batch
    ∧ length batch = k.
Proof.
  apply (proj2 (trigger_report_matches_store example_host "R1" example_world)).
  reflexivity.
Defined.

(** X10: what a freshly triggered job looks like.  Every job a run of
    [trigger_image_build] adds has an id and a creation time, is not taken,
    has no result and is not failed; and it has no priority, version, data,
    worker, assignment or finishing time, and no log excerpt: the command
    sets none of them. *)
Theorem triggered_job_is_blank (h : Host) (n : string) (w : World) (j : Job) :
  j ∈ added_jobs h n w →
  is_Some (uuid j) ∧ is_Some (time_created j)
  ∧ is_taken j = false ∧ has_result j = false ∧ is_failed j = false
  ∧ priority j = None ∧ version j = None ∧ data j = None ∧ worker j = None
  ∧ time_assigned j = None ∧ time_finished j = None ∧ latest_log_excerpt j = None.
Proof.
  intros Hj.
  destruct (added_jobs_cases h n w) as [[Hnil _]|(r & _ & Hbatch & _)].
  - rewrite Hnil in Hj. by inversion Hj.
  - rewrite Hbatch in Hj. clear Hbatch.
    revert Hj. generalize (uuid_draws w) (clock_reads w).
    induction (ImageBuildRecipe.architectures r) as [|a archs IH]; intros d c Hj; simpl in Hj.
    + by inversion Hj.
    + apply elem_of_cons in Hj as [->|Hj]; [|by eapply IH].
      unfold stored_job, is_taken, has_result, is_failed. simpl. by repeat split.
Qed.

Lemma triggered_job_is_blank_witness :
  is_Some (uuid (stored_job recipe_R1 0%N 0%Z "amd64"))
  ∧ is_Some (time_created (stored_job recipe_R1 0%N 0%Z "amd64"))
  ∧ is_taken (stored_job recipe_R1 0%N 0%Z "amd64") = false
  ∧ has_result (stored_job recipe_R1 0%N 0%Z "amd64") = false
  ∧ is_failed (stored_job recipe_R1 0%N 0%Z "amd64") = false
  ∧ priority (stored_job recipe_R1 0%N 0%Z "amd64") = None
  ∧ version (stored_job recipe_R1 0%N 0%Z "amd64") = None
  ∧ data (stored_job recipe_R1 0%N 0%Z "amd64") = None
  ∧ worker (stored_job recipe_R1 0%N 0%Z "amd64") = None
  ∧ time_assigned (stored_job recipe_R1 0%N 0%Z "amd64") = None
  ∧ time_finished (stored_job recipe_R1 0%N 0%Z "amd64") = None
  ∧ latest_log_excerpt (stored_job recipe_R1 0%N 0%Z "amd64") = None.
Proof.
  apply (triggered_job_is_blank example_host "R1" example_world).
  vm_compute. apply list_elem_of_here.
Defined.



(** ** admin/lkadmin/isotope.py: exit statuses of the command *)

(** X12: what the exit status of the isotope command tells, when
    [--add-recipe] is not given and no session operation fails.  Status 1
    means that no recipe name was given (none, or the empty string): nothing
    but "No action selected." is printed and the world is untouched.  Status
    2 means that a name was given and no stored recipe has it: no job is
    stored.  There is no other exit status; in particular a recipe whose
    name is the empty string cannot be triggered. *)
Theorem isotope_exit_status (add_image_recipe : Options → M unit) (h : Host)
    (options : Options) (t : Terminal) (code : Z) :
  add_recipe options = false →
  fuse (world t) = None →
  fst (module_isotope_init add_image_recipe h options t) = inl (SystemExit code) →
  (code = 1%Z
   ∧ (trigger_build options = None ∨ trigger_build options = Some "")
   ∧ snd (module_isotope_init add_image_recipe h options t)
     = mkTerminal (world t) (printed t ++ ["No action selected."]))
  ∨ (code = 2%Z
     ∧ (∃ n, trigger_build options = Some n ∧ n ≠ ""
             ∧ filter (λ r, ImageBuildRecipe.name r = n) (recipes (world t)) = [])
     ∧ jobs (world (snd (module_isotope_init add_image_recipe h options t)))
       = jobs (world t)
     ∧ printed (snd (module_isotope_init add_image_recipe h options t)) = printed t).
Proof.
  intros Hadd Hfuse. unfold module_isotope_init. rewrite Hadd.
  destruct (trigger_build options) as [n|] eqn:Hn; simpl.
  - destruct (String.eqb_spec n "") as [->|Hne]; simpl.
    + intros [= <-]. left. auto.
    + unfold at_terminal. rewrite trigger_image_build_run. cbv zeta. rewrite Hfuse.
      cbn [survives].
      destruct (filter _ (recipes (world t))) as [|r [|r' rs]] eqn:Q; cbn [fst snd].
      * intros [= <-]. right. split; [done|]. split; [by exists n|]. by split.
      * destruct (decide (constraints_ok _ _)); cbn [fst]; intros [=].
      * intros [=].
  - intros [= <-]. left. auto.
Qed.

Lemma isotope_exit_status_witness :
  (1%Z = 1%Z
   ∧ (Some "" = None ∨ Some "" = Some "")
   ∧ snd (module_isotope_init (λ _, mret ()) example_host (mkOptions false (Some ""))
            (mkTerminal (mkWorld [] [ImageBuildRecipe.mk 5%N "" ["amd64"]] [] 0 0 None []) []))
     = mkTerminal (mkWorld [] [ImageBuildRecipe.mk 5%N "" ["amd64"]] [] 0 0 None [])
                  ["No action selected."])
  ∨ (1%Z = 2%Z
     ∧ (∃ n, Some "" = Some n ∧ n ≠ ""
             ∧ filter (λ r, ImageBuildRecipe.name r = n)
                 [ImageBuildRecipe.mk 5%N "" ["amd64"]] = [])
     ∧ jobs (world (snd (module_isotope_init (λ _, mret ()) example_host
                           (mkOptions false (Some ""))
                           (mkTerminal
                              (mkWorld [] [ImageBuildRecipe.mk 5%N "" ["amd64"]] [] 0 0 None [])
                              [])))) = []
     ∧ printed (snd (module_isotope_init (λ _, mret ()) example_host
                       (mkOptions false (Some ""))
                       (mkTerminal
                          (mkWorld [] [ImageBuildRecipe.mk 5%N "" ["amd64"]] [] 0 0 None [])
                          []))) = []).
Proof.
  apply (isotope_exit_status (λ _, mret ()) example_host (mkOptions false (Some ""))
           (mkTerminal (mkWorld [] [ImageBuildRecipe.mk 5%N "" ["amd64"]] [] 0 0 None []) [])
           1%Z); reflexivity.
Defined.

(** ** laniakea/utils/misc.py *)

Example split_strip_examples :
  Misc.split_strip (λ c, (c =? 32)%N) (Misc.lit " a, b ,,c ") (Misc.lit ",")
  = inr [Misc.lit "a"; Misc.lit "b"; Misc.lit "c"]
  ∧ Misc.str_split (Misc.lit "aaa") (Misc.lit "aa") = inr [[]; Misc.lit "a"]
  ∧ Misc.str_split (Misc.lit "a,") (Misc.lit ",") = inr [Misc.lit "a"; []]
  ∧ Misc.str_split [] (Misc.lit ",") = inr [[]]
  ∧ Misc.is_remote_url (Misc.lit "https://example.org/x") = true
  ∧ Misc.is_remote_url (Misc.lit "HTTP://example.org/x") = false
  ∧ Misc.check_filename_safe (Misc.lit "pkg_1.0~rc1+b2.deb") = true
  ∧ Misc.check_filename_safe (Misc.lit "../etc") = false
  ∧ Misc.check_filepath_safe (Misc.lit "pool/main/a/../b") = true.
Proof. vm_compute. by repeat split. Qed.

Lemma strip_prefix_spec p : ∀ s r, Misc.strip_prefix p s = Some r ↔ s = p ++ r.
Proof.
  induction p as [|a p IH]; intros s r; simpl.
  - split; [by intros [= ->]|by intros ->].
  - destruct s as [|c s]; [by split|].
    destruct (N.eqb_spec a c) as [->|Hne].
    + rewrite IH. split; [by intros ->|by intros [= ->]].
    + split; [done|]. intros [= -> _]. done.
Qed.

Lemma elem_of_re_lit p s r : r ∈ Misc.re_lit p s ↔ s = p ++ r.
Proof.
  unfold Misc.re_lit. destruct (Misc.strip_prefix p s) as [r'|] eqn:E.
  - apply strip_prefix_spec in E as ->. rewrite list_elem_of_singleton.
    split; [by intros ->|]. by intros ->%app_inv_head.
  - split; [by intros ?%elem_of_nil|].
    intros Hs. apply strip_prefix_spec in Hs. congruence.
Qed.

Lemma elem_of_re_seq r1 r2 s r :
  r ∈ Misc.re_seq r1 r2 s ↔ ∃ m, m ∈ r1 s ∧ r ∈ r2 m.
Proof.
  unfold Misc.re_seq. rewrite list_elem_of_join. split.
  - intros (l & Hr & (m & -> & Hm)%list_elem_of_fmap). eauto.
  - intros (m & Hm & Hr). exists (r2 m). split; [done|]. by apply list_elem_of_fmap_2.
Qed.

Lemma elem_of_re_alt r1 r2 s r : r ∈ Misc.re_alt r1 r2 s ↔ r ∈ r1 s ∨ r ∈ r2 s.
Proof. unfold Misc.re_alt. apply elem_of_app. Qed.

Lemma elem_of_re_opt r1 s r : r ∈ Misc.re_opt r1 s ↔ r ∈ r1 s ∨ r = s.
Proof. unfold Misc.re_opt. by rewrite elem_of_app, list_elem_of_singleton. Qed.

Lemma elem_of_re_class cls s r :
  r ∈ Misc.re_class cls s ↔ ∃ c, cls c = true ∧ s = c :: r.
Proof.
  unfold Misc.re_class. destruct s as [|c s].
  - split; [by intros ?%elem_of_nil|by intros (? & _ & ?)].
  - destruct (cls c) eqn:E.
    + rewrite list_elem_of_singleton. split; [intros ->; eauto|by intros (? & _ & [= -> ->])].
    + split; [by intros ?%elem_of_nil|]. intros (? & ? & [= <- _]). congruence.
Qed.

Lemma elem_of_re_star_class cls s : ∀ r,
  r ∈ Misc.re_star_class cls s ↔ ∃ body, Forall (λ c, cls c = true) body ∧ s = body ++ r.
Proof.
  induction s as [|c s IH]; intros r; simpl.
  - rewrite list_elem_of_singleton. split.
    + intros ->. by exists [].
    + by intros (body & _ & [-> ->]%eq_sym%app_eq_nil).
  - destruct (cls c) eqn:E.
    + rewrite elem_of_app, list_elem_of_singleton, IH. split.
      * intros [(body & Hb & ->)| ->]; [exists (c :: body)|exists []]; by repeat constructor.
      * intros (body & Hb & Heq). destruct body as [|c' body]; simpl in Heq.
        -- by right.
        -- injection Heq as <- ->. left. exists body. split; [|done].
           by apply Forall_cons in Hb as [_ ?].
    + rewrite list_elem_of_singleton. split; [intros ->; by exists []|].
      intros (body & Hb & Heq). destruct body as [|c' body]; simpl in Heq; [done|].
      injection Heq as <- ->. apply Forall_cons in Hb as [Hc _]. congruence.
Qed.

Lemma elem_of_re_end s r : r ∈ Misc.re_end s ↔ r = s ∧ (s = [] ∨ s = [10%N]).
Proof.
  unfold Misc.re_end. destruct s as [|c [|c' s]].
  - rewrite list_elem_of_singleton. split; [by intros ->; auto|by intros [-> _]].
  - destruct (N.eqb_spec c 10) as [->|Hne].
    + rewrite list_elem_of_singleton. split; [by intros ->; auto|by intros [-> _]].
    + split; [by intros ?%elem_of_nil|]. intros [_ [?|[= ?]]]; congruence.
  - split; [by intros ?%elem_of_nil|]. intros [_ [?|?]]; congruence.
Qed.

Lemma re_match_spec r s : Misc.re_match r s = true ↔ ∃ m, m ∈ r s.
Proof.
  unfold Misc.re_match. destruct (r s) as [|m l].
  - split; [done|]. by intros [? ?%elem_of_nil].
  - split; [|done]. intros _. exists m. apply list_elem_of_here.
Qed.

(** The texts a pattern [[first][cls]*$] matches. *)
Lemma safe_pattern_shape (first cls : N → bool) (s : list N) :
  Misc.re_match
    (Misc.re_seq (Misc.re_class first) (Misc.re_seq (Misc.re_star_class cls) Misc.re_end)) s
  = true
  ↔ ∃ c body, first c = true ∧ Forall (λ x, cls x = true) body
              ∧ (s = c :: body ∨ s = c :: body ++ [10%N]).
Proof.
  rewrite re_match_spec. split.
  - intros (r & (m1 & (c & Hc & ->)%elem_of_re_class
                 & (m2 & (body & Hb & ->)%elem_of_re_star_class
                    & (-> & Hend)%elem_of_re_end)%elem_of_re_seq)%elem_of_re_seq).
    exists c, body. split; [done|]. split; [done|].
    destruct Hend as [-> | ->]; [left; by rewrite app_nil_r|by right].
  - intros (c & body & Hc & Hb & Hs).
    assert (∃ tail, (tail = [] ∨ tail = [10%N]) ∧ s = c :: body ++ tail) as (tail & Ht & ->).
    { destruct Hs as [-> | ->]; [exists []; by rewrite app_nil_r; auto|exists [10%N]; auto]. }
    exists tail. apply elem_of_re_seq. exists (body ++ tail). split.
    + apply elem_of_re_class. eauto.
    + apply elem_of_re_seq. exists tail. split.
      * apply elem_of_re_star_class. eauto.
      * apply elem_of_re_end. auto.
Qed.

Lemma check_filename_safe_spec s :
  Misc.check_filename_safe s = true
  ↔ ∃ c body, Misc.is_alnum c = true ∧ Forall (λ x, Misc.is_file_safe x = true) body
              ∧ (s = c :: body ∨ s = c :: body ++ [10%N]).
Proof.
  unfold Misc.check_filename_safe, Misc.re_file_safe. rewrite <- safe_pattern_shape.
  by destruct (Misc.re_match _ s).
Qed.

Lemma check_filepath_safe_spec s :
  Misc.check_filepath_safe s = true
  ↔ ∃ c body, Misc.is_alnum c = true ∧ Forall (λ x, Misc.is_file_safe_slash x = true) body
              ∧ (s = c :: body ∨ s = c :: body ++ [10%N]).
Proof.
  unfold Misc.check_filepath_safe, Misc.re_file_safe_slash. rewrite <- safe_pattern_shape.
  by destruct (Misc.re_match _ s).
Qed.

(** X13: what [check_filename_safe] accepts.  A name passes exactly when it
    is one letter or digit followed by letters, digits and characters of
    [_.~+-], possibly with one newline at the very end: the [$] of the
    pattern also matches before a final newline.  So a name with a newline
    appended passes exactly when the name passes and does not itself end in
    a newline. *)
Theorem check_filename_safe_accepts (s : list N) :
  (Misc.check_filename_safe s = true
   ↔ ∃ c body, Misc.is_alnum c = true ∧ Forall (λ x, Misc.is_file_safe x = true) body
               ∧ (s = c :: body ∨ s = c :: body ++ [10%N]))
  ∧ (Misc.check_filename_safe (s ++ [10%N]) = true
     ↔ Misc.check_filename_safe s = true ∧ last s ≠ Some 10%N).
Proof.
  split; [apply check_filename_safe_spec|]. split.
  - intros (c & body & Hc & Hb & [Hs|Hs])%check_filename_safe_spec.
    + exfalso.
      assert (Hin : 10%N ∈ c :: body).
      { rewrite <- Hs. apply elem_of_app. right. apply list_elem_of_here. }
      apply elem_of_cons in Hin as [<-|Hin]; [by vm_compute in Hc|].
      apply (proj1 (Forall_forall _ _) Hb) in Hin. by vm_compute in Hin.
    + change (c :: body ++ [10%N]) with ((c :: body) ++ [10%N]) in Hs.
      apply app_inj_tail in Hs as [-> _]. split.
      * apply check_filename_safe_spec. exists c, body. auto.
      * intros Hin%last_Some_elem_of.
        apply elem_of_cons in Hin as [<-|Hin]; [by vm_compute in Hc|].
        apply (proj1 (Forall_forall _ _) Hb) in Hin. by vm_compute in Hin.
  - intros [(c & body & Hc & Hb & [-> | ->])%check_filename_safe_spec Hlast].
    + apply check_filename_safe_spec. exists c, body. auto.
    + exfalso. apply Hlast. by rewrite app_comm_cons, last_snoc.
Qed.

Lemma check_filename_safe_accepts_witness :
  Misc.check_filename_safe (Misc.lit "pkg_1.0.deb" ++ [10%N]) = true.
Proof.
  apply (check_filename_safe_accepts (Misc.lit "pkg_1.0.deb")). split.
  - reflexivity.
  - vm_compute. discriminate.
Defined.

(** X14: what a safe file name never is.  A name that passes
    [check_filename_safe] is not empty, starts with a letter or digit (so it
    is neither [.] nor [..], is not hidden and cannot be taken for an option),
    and contains no slash, no NUL and no space. *)
Theorem check_filename_safe_excludes (s : list N) :
  Misc.check_filename_safe s = true →
  (∃ c rest, s = c :: rest ∧ Misc.is_alnum c = true)
  ∧ (47%N ∉ s) ∧ (0%N ∉ s) ∧ (32%N ∉ s)
  ∧ head s ≠ Some 46%N ∧ head s ≠ Some 45%N
  ∧ s ≠ Misc.lit "." ∧ s ≠ Misc.lit "..".
Proof.
  intros (c & body & Hc & Hb & Hs)%check_filename_safe_spec.
  assert (Hchars : ∀ x, x ∈ s → Misc.is_alnum x = true ∨ Misc.is_file_safe x = true
                                 ∨ x = 10%N).
  { intros x Hx.
    assert (Hx' : x ∈ c :: body ++ [10%N]).
    { destruct Hs as [-> | ->]; [|done].
      apply elem_of_cons in Hx as [->|Hx]; [apply list_elem_of_here|].
      right. apply elem_of_app. by left. }
    apply elem_of_cons in Hx' as [->|Hx']; [by left|].
    apply elem_of_app in Hx' as [Hx'|Hx'%list_elem_of_singleton]; [|by auto].
    right; left. by apply (proj1 (Forall_forall _ _) Hb). }
  assert (Hhead : head s = Some c) by (by destruct Hs as [-> | ->]).
  split; [destruct Hs as [-> | ->]; eauto|].
  assert (Hnot : ∀ x, Misc.is_alnum x = false → Misc.is_file_safe x = false →
                      x ≠ 10%N → x ∉ s).
  { intros x H1 H2 H3 Hin. destruct (Hchars x Hin) as [H|[H|H]]; congruence. }
  split; [by apply Hnot|]. split; [by apply Hnot|]. split; [by apply Hnot|].
  split; [rewrite Hhead; intros [= ->]; by vm_compute in Hc|].
  split; [rewrite Hhead; intros [= ->]; by vm_compute in Hc|].
  split; intros ->; vm_compute in Hhead; injection Hhead as <-; by vm_compute in Hc.
Qed.

Lemma check_filename_safe_excludes_witness :
  (∃ c rest, Misc.lit "a.b" = c :: rest ∧ Misc.is_alnum c = true)
  ∧ (47%N ∉ Misc.lit "a.b") ∧ (0%N ∉ Misc.lit "a.b") ∧ (32%N ∉ Misc.lit "a.b")
  ∧ head (Misc.lit "a.b") ≠ Some 46%N ∧ head (Misc.lit "a.b") ≠ Some 45%N
  ∧ Misc.lit "a.b" ≠ Misc.lit "." ∧ Misc.lit "a.b" ≠ Misc.lit "..".
Proof. apply (check_filename_safe_excludes (Misc.lit "a.b")). reflexivity. Defined.

Lemma is_file_safe_slash_of_safe x :
  Misc.is_file_safe x = true → Misc.is_file_safe_slash x = true.
Proof. unfold Misc.is_file_safe_slash. intros ->. apply orb_true_r. Qed.

Lemma is_file_safe_of_slash x :
  Misc.is_file_safe_slash x = true → x ≠ 47%N → Misc.is_file_safe x = true.
Proof.
  unfold Misc.is_file_safe_slash. intros [H|H]%orb_true_iff Hne; [|done].
  by apply bool_decide_eq_true in H.
Qed.

(** X15: file names and file paths.  Every safe file name is a safe file
    path, and a safe path without a slash is a safe file name: the two
    checks differ in the slash only.  In particular [check_filepath_safe]
    does not look at path components: for safe names [a] and [b], the path
    [a/../b] passes, unless [a] ends in a newline; a name that ends in the
    one newline [check_filename_safe] tolerates makes the path fail, since
    the newline is then no longer at the end. *)
Theorem check_filepath_safe_vs_filename (s a b : list N) :
  (Misc.check_filename_safe s = true → Misc.check_filepath_safe s = true)
  ∧ (Misc.check_filepath_safe s = true → (47%N ∉ s) → Misc.check_filename_safe s = true)
  ∧ (Misc.check_filename_safe a = true → Misc.check_filename_safe b = true →
     (Misc.check_filepath_safe (a ++ Misc.lit "/../" ++ b) = true ↔ last a ≠ Some 10%N)).
Proof.
  split; [|split].
  - intros (c & body & Hc & Hb & Hs)%check_filename_safe_spec.
    apply check_filepath_safe_spec. exists c, body. split; [done|]. split; [|done].
    eapply Forall_impl; [exact Hb|]. apply is_file_safe_slash_of_safe.
  - intros (c & body & Hc & Hb & Hs)%check_filepath_safe_spec Hno.
    apply check_filename_safe_spec. exists c, body. split; [done|]. split; [|done].
    apply Forall_forall. intros x Hx.
    apply is_file_safe_of_slash; [by apply (proj1 (Forall_forall _ _) Hb)|].
    intros ->. apply Hno. destruct Hs as [-> | ->]; right; [done|].
    apply elem_of_app. by left.
  - intros (c & body & Hc & Hb & Hs)%check_filename_safe_spec
           (c' & body' & Hc' & Hb' & Hs')%check_filename_safe_spec.
    split.
    + intros (c2 & body2 & Hc2 & Hb2 & Hs2)%check_filepath_safe_spec Hlast.
      assert (a = c :: body ++ [10%N]) as ->.
      { destruct Hs as [-> | ->]; [|done]. exfalso.
        destruct body as [|x body _] using rev_ind.
        - cbn in Hlast. injection Hlast as ->. by vm_compute in Hc.
        - rewrite app_comm_cons, last_snoc in Hlast. injection Hlast as ->.
          apply Forall_app in Hb as [_ Hx]. apply Forall_cons in Hx as [Hx _].
          by vm_compute in Hx. }
      assert (Hbad : 10%N ∈ body2).
      { assert (Hne : ∃ rest x, Misc.lit "/../" ++ b = rest ++ [x]).
        { destruct (Misc.lit "/../" ++ b) as [|y l _] eqn:E using rev_ind; [|by eauto].
          destruct Hs' as [-> | ->]; discriminate E. }
        destruct Hne as (rest & x & Hrest).
        assert (Heq : (c :: body ++ [10%N]) ++ Misc.lit "/../" ++ b
                      = c :: (body ++ [10%N] ++ rest) ++ [x]).
        { rewrite Hrest. cbn. by rewrite <- !app_assoc. }
        assert (Hmid : 10%N ∈ body ++ [10%N] ++ rest).
        { apply elem_of_app. right. apply list_elem_of_here. }
        rewrite Heq in Hs2. destruct Hs2 as [Hs2|Hs2].
        - injection Hs2 as _ <-. apply elem_of_app. by left.
        - injection Hs2 as _ Hs2. by apply app_inj_tail in Hs2 as [<- _]. }
      apply (proj1 (Forall_forall _ _) Hb2) in Hbad. by vm_compute in Hbad.
    + intros Hlast.
      assert (a = c :: body) as ->.
      { destruct Hs as [-> | ->]; [done|]. exfalso. apply Hlast.
        by rewrite app_comm_cons, last_snoc. }
      assert (Hall : Forall (λ x, Misc.is_file_safe_slash x = true)
                       (body ++ Misc.lit "/../" ++ c' :: body')).
      { apply Forall_app. split.
        - eapply Forall_impl; [exact Hb|]. apply is_file_safe_slash_of_safe.
        - apply Forall_app. split; [by repeat constructor|].
          constructor.
          + apply is_file_safe_slash_of_safe. unfold Misc.is_file_safe. by rewrite Hc'.
          + eapply Forall_impl; [exact Hb'|]. apply is_file_safe_slash_of_safe. }
      apply check_filepath_safe_spec. exists c, (body ++ Misc.lit "/../" ++ c' :: body').
      split; [done|]. split; [done|].
      destruct Hs' as [-> | ->]; [left|right]; simpl; by rewrite <- ?app_assoc.
Qed.

Lemma check_filepath_safe_vs_filename_witness :
  (Misc.check_filepath_safe (Misc.lit "pool" ++ Misc.lit "/../" ++ Misc.lit "etc") = true
   ↔ last (Misc.lit "pool") ≠ Some 10%N)
  ∧ (Misc.check_filepath_safe ((Misc.lit "a" ++ [10%N]) ++ Misc.lit "/../" ++ Misc.lit "b")
     = true ↔ last (Misc.lit "a" ++ [10%N]) ≠ Some 10%N).
Proof.
  split.
  - apply (check_filepath_safe_vs_filename [] (Misc.lit "pool") (Misc.lit "etc")).
    + reflexivity.
    + reflexivity.
  - apply (check_filepath_safe_vs_filename [] (Misc.lit "a" ++ [10%N]) (Misc.lit "b")).
    + reflexivity.
    + reflexivity.
Defined.

Lemma is_remote_url_spec uri :
  Misc.is_remote_url uri = true ↔ ∃ p rest, p ∈ remote_prefixes ∧ uri = p ++ rest.
Proof.
  unfold Misc.is_remote_url, Misc.uriregex. rewrite re_match_spec.
  setoid_rewrite elem_of_re_seq. setoid_rewrite elem_of_re_alt.
  setoid_rewrite elem_of_re_seq. setoid_rewrite elem_of_re_opt.
  setoid_rewrite elem_of_re_lit. unfold remote_prefixes. split.
  - intros (r & m & [(m1 & -> & [-> | ->])|(m1 & -> & [-> | ->])] & ->).
    + exists (Misc.lit "https://"), r. split; [by repeat constructor|reflexivity].
    + exists (Misc.lit "http://"), r. split; [by repeat constructor|reflexivity].
    + exists (Misc.lit "ftps://"), r. split; [by repeat constructor|reflexivity].
    + exists (Misc.lit "ftp://"), r. split; [by repeat constructor|reflexivity].
  - intros (p & rest & Hp & ->). exists rest.
    repeat (apply elem_of_cons in Hp as [->|Hp]).
    + exists (Misc.lit "://" ++ rest). split; [|reflexivity]. left.
      exists (Misc.lit "://" ++ rest). split; [reflexivity|by right].
    + exists (Misc.lit "://" ++ rest). split; [|reflexivity]. left.
      exists (Misc.lit "s://" ++ rest). split; [reflexivity|by left].
    + exists (Misc.lit "://" ++ rest). split; [|reflexivity]. right.
      exists (Misc.lit "://" ++ rest). split; [reflexivity|by right].
    + exists (Misc.lit "://" ++ rest). split; [|reflexivity]. right.
      exists (Misc.lit "s://" ++ rest). split; [reflexivity|by left].
    + by apply elem_of_nil in Hp.
Qed.

(** X16: what [is_remote_url] accepts.  A text is a remote URI exactly when
    it starts with [http://], [https://], [ftp://] or [ftps://], in lower
    case; whatever follows does not matter, so the check still holds when
    more text is appended. *)
Theorem is_remote_url_accepts (uri more : list N) :
  (Misc.is_remote_url uri = true ↔ ∃ p rest, p ∈ remote_prefixes ∧ uri = p ++ rest)
  ∧ (Misc.is_remote_url uri = true → Misc.is_remote_url (uri ++ more) = true).
Proof.
  split; [apply is_remote_url_spec|].
  intros (p & rest & Hp & ->)%is_remote_url_spec.
  apply is_remote_url_spec. exists p, (rest ++ more). by rewrite app_assoc.
Qed.

Lemma is_remote_url_accepts_witness :
  Misc.is_remote_url (Misc.lit "ftp://deb.example.org" ++ Misc.lit "/pool") = true.
Proof.
  apply (is_remote_url_accepts (Misc.lit "ftp://deb.example.org") (Misc.lit "/pool")).
  reflexivity.
Defined.

Lemma filename_safe_is_filepath_safe s :
  (Misc.check_filename_safe s = true → Misc.check_filepath_safe s = true).
Proof.
  intros (c & body & Hc & Hb & Hs)%check_filename_safe_spec.
  apply check_filepath_safe_spec. exists c, body. split; [done|]. split; [|done].
  eapply Forall_impl; [exact Hb|]. apply is_file_safe_slash_of_safe.
Qed.

(** X17: a remote URI is never a safe path.  No text that [is_remote_url]
    accepts passes [check_filepath_safe] or [check_filename_safe]: the colon
    after the scheme is not a safe character. *)
Theorem remote_url_is_not_safe_path (uri : list N) :
  Misc.is_remote_url uri = true →
  Misc.check_filepath_safe uri = false ∧ Misc.check_filename_safe uri = false.
Proof.
  intros (p & rest & Hp & ->)%is_remote_url_spec.
  assert (Hpath : Misc.check_filepath_safe (p ++ rest) = false).
  { destruct (Misc.check_filepath_safe (p ++ rest)) eqn:E; [exfalso|done].
    apply check_filepath_safe_spec in E as (c & body & Hc & Hb & Hs).
    assert (Hcolon : ∃ pre, p ++ rest = pre ++ 58%N :: 47%N :: 47%N :: rest).
    { unfold remote_prefixes in Hp.
      repeat (apply elem_of_cons in Hp as [->|Hp]);
        [exists (Misc.lit "http")|exists (Misc.lit "https")
        |exists (Misc.lit "ftp")|exists (Misc.lit "ftps")|by apply elem_of_nil in Hp];
        reflexivity. }
    destruct Hcolon as (pre & Hpre).
    assert (H58 : 58%N ∈ c :: body).
    { assert (Hin : 58%N ∈ p ++ rest).
      { rewrite Hpre. apply elem_of_app. right. apply list_elem_of_here. }
      destruct Hs as [Hs|Hs]; rewrite Hs in Hin; [done|].
      change (c :: body ++ [10%N]) with ((c :: body) ++ [10%N]) in Hin.
      apply elem_of_app in Hin as [Hin|Hin%list_elem_of_singleton]; [done|discriminate]. }
    apply elem_of_cons in H58 as [<-|H58]; [by vm_compute in Hc|].
    apply (proj1 (Forall_forall _ _) Hb) in H58. by vm_compute in H58. }
  split; [done|].
  destruct (Misc.check_filename_safe (p ++ rest)) eqn:E; [|done].
  apply filename_safe_is_filepath_safe in E. congruence.
Qed.

Lemma remote_url_is_not_safe_path_witness :
  Misc.check_filepath_safe (Misc.lit "https://example.org/a.deb") = false
  ∧ Misc.check_filename_safe (Misc.lit "https://example.org/a.deb") = false.
Proof.
  apply (remote_url_is_not_safe_path (Misc.lit "https://example.org/a.deb")). reflexivity.
Defined.

Lemma alphanumerics_are_alnum : Forall (λ c, Misc.is_alnum c = true) Misc.alphanumerics.
Proof. apply (bool_decide_unpack _). vm_compute. exact I. Qed.

(** X18: a random string is a safe file name.  Whatever [random.choice]
    picks from the alphabet it is given, [random_string(length)] has exactly
    [length] characters (none for a length of zero or less), all of them
    letters or digits; so for a positive length it passes
    [check_filename_safe]. *)
Theorem random_string_is_safe_filename (choice : nat → list N → N) (length_ : Z) :
  (∀ n l, l ≠ [] → choice n l ∈ l) →
  length (Misc.random_string choice length_) = Z.to_nat length_
  ∧ Forall (λ c, Misc.is_alnum c = true) (Misc.random_string choice length_)
  ∧ ((0 < length_)%Z → Misc.check_filename_safe (Misc.random_string choice length_) = true)
  ∧ ((length_ ≤ 0)%Z → Misc.random_string choice length_ = []).
Proof.
  intros Hchoice. unfold Misc.random_string.
  assert (Hall : ∀ l : list nat,
            Forall (λ c, Misc.is_alnum c = true) ((λ n, choice n Misc.alphanumerics) <$> l)).
  { intros l. apply Forall_fmap, Forall_forall. intros n _. simpl.
    apply (proj1 (Forall_forall _ _) alphanumerics_are_alnum).
    apply Hchoice. by vm_compute. }
  split; [by rewrite length_fmap, length_seq|]. split; [apply Hall|]. split.
  - intros Hpos. destruct (Z.to_nat length_) as [|k] eqn:Hk; [lia|].
    apply check_filename_safe_spec. cbn [seq fmap list_fmap].
    exists (choice 0 Misc.alphanumerics), ((λ n, choice n Misc.alphanumerics) <$> seq 1 k).
    specialize (Hall (0 :: seq 1 k)). cbn [fmap list_fmap] in Hall.
    apply Forall_cons in Hall as [H0 Hrest].
    split; [done|]. split; [|by left].
    eapply Forall_impl; [exact Hrest|]. intros x Hx. unfold Misc.is_file_safe. by rewrite Hx.
  - intros Hneg. by replace (Z.to_nat length_) with 0 by lia.
Qed.

Lemma random_string_is_safe_filename_witness :
  length (Misc.random_string choose_first 8) = 8
  ∧ Misc.check_filename_safe (Misc.random_string choose_first 8) = true.
Proof.
  destruct (random_string_is_safe_filename choose_first 8) as (Hlen & _ & Hsafe & _).
  - intros n [|x l] Hl; [done|]. apply list_elem_of_here.
  - split; [exact Hlen|]. apply Hsafe. lia.
Defined.

(** X19: [listify] is idempotent.  Applying [listify] to its own result
    changes nothing; a list comes back as it is, whatever it contains; and
    every object that counts as false ([None], [False], [0], the empty
    string, the empty list) gives the empty list, never a list holding
    it. *)
Theorem listify_idempotent (item : Misc.value) :
  Misc.listify (Misc.VList (Misc.listify item)) = Misc.listify item
  ∧ (∀ items, item = Misc.VList items → Misc.listify item = items)
  ∧ (Misc.truthy item = false → Misc.listify item = [])
  ∧ (Misc.truthy item = true → (∀ items, item ≠ Misc.VList items) →
     Misc.listify item = [item]).
Proof.
  split; [|split; [|split]].
  - unfold Misc.listify. destruct (Misc.truthy item) eqn:Ht; simpl; [|done].
    destruct item as [|b|z|s|[|x l]]; simpl in *; try done.
  - intros items ->. by destruct items.
  - unfold Misc.listify. by intros ->.
  - unfold Misc.listify. intros -> Hnl. simpl.
    destruct item; try done. by destruct (Hnl items).
Qed.

Lemma listify_idempotent_witness :
  Misc.listify (Misc.VInt 0) = [] ∧ Misc.listify (Misc.VInt 7) = [Misc.VInt 7].
Proof.
  split.
  - apply (listify_idempotent (Misc.VInt 0)). reflexivity.
  - apply (listify_idempotent (Misc.VInt 7)); [reflexivity|discriminate].
Defined.

(** X20: the directory shorthand of an id.  An id of more than two
    characters has its first two characters as shorthand, an id of two
    characters or fewer has none; so a shorthand has itself no shorthand.
    When the id starts with two letters or digits, as every UUID does, the
    shorthand is a safe file name. *)
Theorem dir_shorthand_of_uuid (s : list N) :
  (Misc.get_dir_shorthand_for_uuid s = None ↔ length s ≤ 2)
  ∧ (∀ p, Misc.get_dir_shorthand_for_uuid s = Some p →
       p = take 2 s ∧ length p = 2
       ∧ Misc.get_dir_shorthand_for_uuid p = None
       ∧ (Forall (λ c, Misc.is_alnum c = true) p → Misc.check_filename_safe p = true)).
Proof.
  unfold Misc.get_dir_shorthand_for_uuid at 1 2.
  destruct (Nat.ltb_spec 2 (length s)) as [Hlt|Hge].
  - split; [split; [done|lia]|]. intros p [= <-].
    assert (Hlen : length (take 2 s) = 2) by (rewrite length_take; lia).
    split; [done|]. split; [done|]. split.
    + unfold Misc.get_dir_shorthand_for_uuid. by rewrite Hlen.
    + intros Hall. destruct (take 2 s) as [|a [|b [|? ?]]]; try done.
      apply Forall_cons in Hall as [Ha Hb]. apply Forall_cons in Hb as [Hb _].
      apply check_filename_safe_spec. exists a, [b]. split; [done|]. split; [|by left].
      constructor; [|done]. unfold Misc.is_file_safe. by rewrite Hb.
  - split; [done|]. by intros p.
Qed.

Lemma dir_shorthand_of_uuid_witness :
  Misc.lit "9f" = take 2 (Misc.lit "9f3c2a10-0000")
  ∧ length (Misc.lit "9f") = 2
  ∧ Misc.get_dir_shorthand_for_uuid (Misc.lit "9f") = None
  ∧ (Forall (λ c, Misc.is_alnum c = true) (Misc.lit "9f") →
     Misc.check_filename_safe (Misc.lit "9f") = true).
Proof.
  apply (dir_shorthand_of_uuid (Misc.lit "9f3c2a10-0000")). reflexivity.
Defined.

(** ** [split_strip] *)

Lemma starts_with_spec p s : Misc.starts_with p s = true ↔ ∃ r, s = p ++ r.
Proof.
  unfold Misc.starts_with. destruct (Misc.strip_prefix p s) as [r|] eqn:E.
  - apply strip_prefix_spec in E. split; [by exists r|done].
  - split; [done|]. intros [r Hr]. apply strip_prefix_spec in Hr. congruence.
Qed.

Lemma split_from_nonempty sep : ∀ s k cur, Misc.split_from sep k cur s ≠ [].
Proof.
  induction s as [|c s IH]; intros k cur; simpl; [done|].
  destruct k; [|apply IH]. destruct (Misc.starts_with sep (c :: s)); [done|apply IH].
Qed.

Lemma split_from_skip sep : ∀ s k cur,
  k ≤ length s → Misc.split_from sep k cur s = Misc.split_from sep 0 cur (drop k s).
Proof.
  induction s as [|c s IH]; intros k cur Hk.
  - destruct k; [done|simpl in Hk; lia].
  - destruct k; [done|]. simpl in Hk. simpl. apply IH. lia.
Qed.

Lemma split_from_sep sep cur rest :
  sep ≠ [] →
  Misc.split_from sep 0 cur (sep ++ rest) = reverse cur :: Misc.split_from sep 0 [] rest.
Proof.
  destruct sep as [|c sep']; [done|]. intros _.
  change ((c :: sep') ++ rest) with (c :: (sep' ++ rest)).
  cbn [Misc.split_from].
  replace (Misc.starts_with (c :: sep') (c :: sep' ++ rest)) with true
    by (symmetry; apply starts_with_spec; by exists rest).
  f_equal. rewrite split_from_skip by (rewrite length_app; simpl; lia).
  replace (length (c :: sep') - 1) with (length sep') by (simpl; lia).
  by rewrite drop_app_length.
Qed.

Lemma split_from_other sep cur c s :
  Misc.starts_with sep (c :: s) = false →
  Misc.split_from sep 0 cur (c :: s) = Misc.split_from sep 0 (c :: cur) s.
Proof. intros H. cbn [Misc.split_from]. by rewrite H. Qed.

Lemma str_join_cons sep p parts :
  parts ≠ [] → str_join sep (p :: parts) = p ++ sep ++ str_join sep parts.
Proof. by destruct parts. Qed.

(** Joining what [s.split(sep)] yields by [sep] gives [s] back. *)
Lemma split_from_join sep :
  sep ≠ [] →
  ∀ n s cur, length s ≤ n → str_join sep (Misc.split_from sep 0 cur s) = reverse cur ++ s.
Proof.
  intros Hsep. induction n as [|n IH]; intros s cur Hn.
  - destruct s; [|simpl in Hn; lia]. simpl. by rewrite app_nil_r.
  - destruct s as [|c s]; [simpl; by rewrite app_nil_r|].
    destruct (Misc.starts_with sep (c :: s)) eqn:E.
    + apply starts_with_spec in E as [rest Hrest]. rewrite Hrest.
      rewrite split_from_sep by done.
      rewrite str_join_cons by apply split_from_nonempty.
      rewrite IH; [done|].
      apply (f_equal length) in Hrest. rewrite length_app in Hrest. simpl in Hn, Hrest.
      destruct sep; [done|]. simpl in Hrest. lia.
    + rewrite split_from_other by done. rewrite IH by (simpl in Hn; lia).
      by rewrite reverse_cons, <- app_assoc.
Qed.

(** No part that [s.split(sep)] yields contains [sep]. *)
Lemma split_from_no_sep sep :
  sep ≠ [] →
  ∀ n s cur, length s ≤ n →
    (∀ a b, reverse cur = a ++ b → b ≠ [] → Misc.starts_with sep (b ++ s) = false) →
    ∀ p, p ∈ Misc.split_from sep 0 cur s → ∀ a b, p ≠ a ++ sep ++ b.
Proof.
  intros Hsep.
  assert (Hcur : ∀ cur s,
            (∀ a b, reverse cur = a ++ b → b ≠ [] → Misc.starts_with sep (b ++ s) = false) →
            ∀ a b, reverse cur ≠ a ++ sep ++ b).
  { intros cur s Inv a b Hab.
    specialize (Inv a (sep ++ b) Hab).
    assert (Misc.starts_with sep ((sep ++ b) ++ s) = true) as Ht
      by (apply starts_with_spec; exists (b ++ s); by rewrite app_assoc).
    rewrite Inv in Ht; [done|]. by destruct sep. }
  induction n as [|n IH]; intros s cur Hn Inv p Hp.
  - destruct s; [|simpl in Hn; lia]. simpl in Hp.
    apply list_elem_of_singleton in Hp as ->. by apply (Hcur cur []).
  - destruct s as [|c s].
    { simpl in Hp. apply list_elem_of_singleton in Hp as ->. by apply (Hcur cur []). }
    destruct (Misc.starts_with sep (c :: s)) eqn:E.
    + apply starts_with_spec in E as [rest Hrest]. rewrite Hrest in Hp.
      rewrite split_from_sep in Hp by done.
      apply elem_of_cons in Hp as [->|Hp]; [by apply (Hcur cur (c :: s))|].
      eapply (IH rest []); [| |exact Hp].
      * apply (f_equal length) in Hrest. rewrite length_app in Hrest. simpl in Hn, Hrest.
        destruct sep; [done|]. simpl in Hrest. lia.
      * intros a b Hab Hb. symmetry in Hab. apply app_eq_nil in Hab as [_ ->]. done.
    + rewrite split_from_other in Hp by done.
      eapply (IH s (c :: cur)); [simpl in Hn; lia| |exact Hp].
      intros a b Hab Hb. rewrite reverse_cons in Hab.
      destruct b as [|x b _] using rev_ind; [done|].
      rewrite app_assoc in Hab. apply app_inj_tail in Hab as [Hab <-].
      rewrite <- app_assoc. simpl.
      destruct b as [|y b]; [exact E|]. by apply (Inv a (y :: b)).
Qed.

Lemma elem_of_str_join sep parts p :
  p ∈ parts → ∃ a b, str_join sep parts = a ++ p ++ b.
Proof.
  induction parts as [|q parts IH]; [by intros ?%elem_of_nil|].
  intros Hp. destruct parts as [|q' parts].
  - apply list_elem_of_singleton in Hp as ->. exists [], []. simpl. by rewrite app_nil_r.
  - rewrite str_join_cons by done.
    apply elem_of_cons in Hp as [->|Hp].
    + by exists [], (sep ++ str_join sep (q' :: parts)).
    + destruct (IH Hp) as (a & b & ->). exists (q ++ sep ++ a), b.
      by rewrite <- !app_assoc.
Qed.

Lemma lstrip_spec isspace s :
  ∃ ws, s = ws ++ Misc.lstrip isspace s ∧ Forall (λ c, isspace c = true) ws
        ∧ ∀ c, head (Misc.lstrip isspace s) = Some c → isspace c = false.
Proof.
  induction s as [|c s (ws & Hs & Hws & Hhd)]; simpl.
  - exists []. by repeat split.
  - destruct (isspace c) eqn:E.
    + exists (c :: ws). split; [simpl; congruence|]. split; [by constructor|done].
    + exists []. split; [done|]. split; [done|]. simpl. by intros ? [= <-].
Qed.

Lemma lstrip_id isspace s :
  (∀ c, head s = Some c → isspace c = false) → Misc.lstrip isspace s = s.
Proof. destruct s as [|c s]; [done|]. intros H. simpl. by rewrite (H c). Qed.

Lemma lstrip_blank isspace s :
  Forall (λ c, isspace c = true) s → Misc.lstrip isspace s = [].
Proof. induction 1 as [|c s Hc _ IH]; [done|]. simpl. by rewrite Hc. Qed.

(** [strip] removes blanks at both ends and nothing else. *)
Lemma strip_spec isspace s :
  ∃ l r, s = l ++ Misc.strip isspace s ++ r
         ∧ Forall (λ c, isspace c = true) l ∧ Forall (λ c, isspace c = true) r
         ∧ (∀ c, head (Misc.strip isspace s) = Some c → isspace c = false)
         ∧ (∀ c, last (Misc.strip isspace s) = Some c → isspace c = false).
Proof.
  unfold Misc.strip.
  destruct (lstrip_spec isspace s) as (l & Hs & Hl & Hhd).
  destruct (lstrip_spec isspace (reverse (Misc.lstrip isspace s))) as (rw & Ht & Hrw & Hhd').
  set (t := Misc.lstrip isspace s) in *.
  set (u := Misc.lstrip isspace (reverse t)) in *.
  assert (Ht' : t = reverse u ++ reverse rw).
  { rewrite <- reverse_app, <- Ht. by rewrite reverse_involutive. }
  exists l, (reverse rw). split; [by rewrite <- Ht'|]. split; [done|].
  split; [by apply Forall_reverse|]. split.
  - intros c Hc. apply Hhd. rewrite Ht'.
    destruct (reverse u); [done|]. exact Hc.
  - intros c Hc. apply Hhd'. by rewrite <- last_reverse.
Qed.

Lemma strip_idem isspace s :
  Misc.strip isspace (Misc.strip isspace s) = Misc.strip isspace s.
Proof.
  destruct (strip_spec isspace s) as (_ & _ & _ & _ & _ & Hhd & Hlast).
  unfold Misc.strip at 1. rewrite (lstrip_id _ _ Hhd).
  rewrite lstrip_id; [by rewrite reverse_involutive|].
  intros c. rewrite head_reverse. apply Hlast.
Qed.

Lemma strip_nil isspace s :
  Misc.strip isspace s = [] ↔ Forall (λ c, isspace c = true) s.
Proof.
  split.
  - intros H. destruct (strip_spec isspace s) as (l & r & Hs & Hl & Hr & _).
    rewrite H in Hs. rewrite Hs. simpl. by apply Forall_app.
  - intros H. unfold Misc.strip. by rewrite (lstrip_blank _ _ H).
Qed.

Lemma strip_parts_spec isspace : ∀ parts res,
  Misc.strip_parts isspace parts res
  = res ++ (Misc.strip isspace <$> filter (λ p, p ≠ []) parts).
Proof.
  induction parts as [|part parts IH]; intros res; simpl; [by rewrite app_nil_r|].
  destruct part as [|c part].
  - rewrite filter_cons_False by (by intros H). apply IH.
  - rewrite filter_cons_True by done. rewrite IH, <- app_assoc. done.
Qed.

Lemma split_strip_spec isspace s sep res :
  Misc.split_strip isspace s sep = inr res ↔
  sep ≠ [] ∧ res = Misc.strip isspace <$> filter (λ p, p ≠ []) (Misc.split_from sep 0 [] s).
Proof.
  unfold Misc.split_strip, Misc.str_split. destruct sep as [|c sep].
  - split; [done|]. by intros [? _].
  - rewrite strip_parts_spec. simpl. split; [by intros [= <-]|]. by intros [_ ->].
Qed.

(** X21: the parts [split_strip] returns are stripped.  [split_strip]
    raises [ValueError] exactly when the separator is empty; otherwise
    every part it returns neither starts nor ends with a blank, so that
    stripping it again changes nothing. *)
Theorem split_strip_parts_are_stripped (isspace : N → bool) (s sep : list N) :
  (Misc.split_strip isspace s sep = inl Misc.ValueError ↔ sep = [])
  ∧ ∀ res p, Misc.split_strip isspace s sep = inr res → p ∈ res →
      Misc.strip isspace p = p
      ∧ (∀ c, head p = Some c → isspace c = false)
      ∧ (∀ c, last p = Some c → isspace c = false).
Proof.
  split.
  - unfold Misc.split_strip, Misc.str_split. by destruct sep.
  - intros res p Hres Hp. apply split_strip_spec in Hres as [_ ->].
    apply list_elem_of_fmap in Hp as (part & -> & _).
    split; [apply strip_idem|].
    destruct (strip_spec isspace part) as (_ & _ & _ & _ & _ & Hhd & Hlast). by split.
Qed.

Lemma split_strip_parts_are_stripped_witness :
  Misc.strip is_blank (Misc.lit "b c") = Misc.lit "b c"
  ∧ (∀ c, head (Misc.lit "b c") = Some c → is_blank c = false)
  ∧ (∀ c, last (Misc.lit "b c") = Some c → is_blank c = false).
Proof.
  apply (proj2 (split_strip_parts_are_stripped is_blank (Misc.lit " a ;; b c ") (Misc.lit ";"))
           [Misc.lit "a"; Misc.lit "b c"]).
  - reflexivity.
  - apply (bool_decide_unpack _). vm_compute. exact I.
Defined.

(** X22: a blank segment stays in the result as an empty string.
    [split_strip] drops the segments that are empty before stripping, and
    strips the others; so the empty string is among the returned parts
    exactly when some segment between two separators is not empty and
    consists of blanks only. *)
Theorem split_strip_keeps_blank_segments (isspace : N → bool) (s sep : list N)
    (parts res : list (list N)) :
  Misc.str_split s sep = inr parts →
  Misc.split_strip isspace s sep = inr res →
  res = Misc.strip isspace <$> filter (λ p, p ≠ []) parts
  ∧ length res ≤ length parts
  ∧ ([] ∈ res ↔ ∃ part, part ∈ parts ∧ part ≠ [] ∧ Forall (λ c, isspace c = true) part).
Proof.
  intros Hparts Hres. apply split_strip_spec in Hres as [Hsep ->].
  unfold Misc.str_split in Hparts. destruct sep as [|c sep]; [done|].
  injection Hparts as <-. split; [done|]. split.
  - rewrite length_fmap. apply length_filter.
  - rewrite list_elem_of_fmap. split.
    + intros (part & Hnil & Hin). apply list_elem_of_filter in Hin as [Hne Hin].
      exists part. split; [done|]. split; [done|]. by apply strip_nil.
    + intros (part & Hin & Hne & Hall). exists part. split.
      * symmetry. by apply strip_nil.
      * by apply list_elem_of_filter.
Qed.

Lemma split_strip_keeps_blank_segments_witness :
  [Misc.lit "a"; []; Misc.lit "b"]
  = Misc.strip is_blank <$> filter (λ p, p ≠ []) [Misc.lit "a"; Misc.lit " "; Misc.lit "b"]
  ∧ length [Misc.lit "a"; []; Misc.lit "b"] ≤ length [Misc.lit "a"; Misc.lit " "; Misc.lit "b"]
  ∧ ([] ∈ [Misc.lit "a"; []; Misc.lit "b"]
     ↔ ∃ part, part ∈ [Misc.lit "a"; Misc.lit " "; Misc.lit "b"] ∧ part ≠ []
               ∧ Forall (λ c, is_blank c = true) part).
Proof.
  apply (split_strip_keeps_blank_segments is_blank (Misc.lit "a, ,b") (Misc.lit ",")).
  - reflexivity.
  - reflexivity.
Defined.

(** X23: the parts [split_strip] returns are pieces of the text.  Every
    part returned is a contiguous piece of [s], and none contains the
    separator. *)
Theorem split_strip_parts_are_pieces (isspace : N → bool) (s sep : list N)
    (res : list (list N)) (p : list N) :
  Misc.split_strip isspace s sep = inr res → p ∈ res →
  (∃ a b, s = a ++ p ++ b) ∧ (∀ a b, p ≠ a ++ sep ++ b).
Proof.
  intros Hres Hp. apply split_strip_spec in Hres as [Hsep ->].
  apply list_elem_of_fmap in Hp as (part & -> & Hin).
  apply list_elem_of_filter in Hin as [_ Hin].
  destruct (strip_spec isspace part) as (l & r & Hpart & _).
  split.
  - destruct (elem_of_str_join sep _ _ Hin) as (a & b & Hj).
    rewrite (split_from_join sep Hsep (length s) s [] (le_n _)) in Hj. simpl in Hj.
    exists (a ++ l), (r ++ b). rewrite Hj, Hpart at 1. by rewrite <- !app_assoc.
  - intros a b Hab.
    apply (split_from_no_sep sep Hsep (length s) s [] (le_n _)) with (p := part)
                                                                     (a := l ++ a) (b := b ++ r).
    + intros a' b' Hab' Hb'. symmetry in Hab'. by apply app_eq_nil in Hab' as [_ ->].
    + done.
    + rewrite Hpart at 1. rewrite Hab. by rewrite <- !app_assoc.
Qed.

Lemma split_strip_parts_are_pieces_witness :
  (∃ a b, Misc.lit " a ;; b c " = a ++ Misc.lit "b c" ++ b)
  ∧ (∀ a b, Misc.lit "b c" ≠ a ++ Misc.lit ";" ++ b).
Proof.
  apply (split_strip_parts_are_pieces is_blank (Misc.lit " a ;; b c ") (Misc.lit ";")
           [Misc.lit "a"; Misc.lit "b c"]).
  - reflexivity.
  - apply (bool_decide_unpack _). vm_compute. exact I.
Defined.
